(** * Secondary-index maintenance over an ordered key-value store

    A shallow embedding of the Go package [model] of micro/website:
    the indexer ([Save], [List], [Read], [Delete]) with its key encoder
    ([indexToKey], [indexPrefix], [getOrderedStringFieldKey]), and, in
    [Module Db], the earlier variant of the package kept in
    [src/model/model.go].

    The Go runtime and libraries the package calls are modelled first:
    byte strings and their order, [fmt] verbs, [unicode/utf8],
    [strconv], [encoding/base32], [encoding/json] and the store. *)

From Stdlib Require Import ZArith List String Ascii Bool Lia SpecFloat Sorted.
Import ListNotations.
Local Open Scope Z_scope.
Set Warnings "-register-all".

(* ================================================================= *)
(** * Go strings: sequences of bytes *)

(** A Go [string] is a sequence of bytes; it is modelled by [string],
    whose characters are the 256 bytes.  Keys are compared bytewise,
    which is [String.compare]. *)

Definition byte_of_Z (z : Z) : ascii := ascii_of_N (Z.to_N z).
Definition Z_of_byte (a : ascii) : Z := Z.of_N (N_of_ascii a).

Definition bytes_of_string (s : string) : list Z :=
  map Z_of_byte (list_ascii_of_string s).
Definition string_of_bytes (l : list Z) : string :=
  string_of_list_ascii (map byte_of_Z l).

Definition strlen (s : string) : Z := Z.of_nat (String.length s).

(** [strings.Join(parts, sep)]. *)
Fixpoint join (sep : string) (parts : list string) : string :=
  match parts with
  | [] => EmptyString
  | [p] => p
  | p :: rest => (p ++ sep ++ join sep rest)%string
  end.

(** [strings.Repeat] of a one-byte string. *)
Fixpoint repeat_byte (a : ascii) (n : nat) : string :=
  match n with
  | O => EmptyString
  | S n' => String a (repeat_byte a n')
  end.

(* ================================================================= *)
(** * Integers: widths, wrap-around and decimal text *)

Definition MaxInt32 : Z := 2147483647.
Definition MaxInt64 : Z := 9223372036854775807.
Definition MinInt64 : Z := -9223372036854775808.

(** Two's complement wrap-around of 64-bit signed arithmetic.  Go's
    [int] is taken to be 64 bits wide, as on amd64 and arm64. *)
Definition wrap64 (z : Z) : Z := (z + 2 ^ 63) mod 2 ^ 64 - 2 ^ 63.

Definition in_int64 (z : Z) : bool := (MinInt64 <=? z) && (z <=? MaxInt64).

Definition digit_char (d : Z) : ascii := byte_of_Z (48 + d).

(** The decimal digits of a non-negative integer, most significant
    first and without leading zeros ([strconv.FormatUint]). *)
Fixpoint utoa_fuel (fuel : nat) (n : Z) : string :=
  match fuel with
  | O => EmptyString
  | S f =>
      if n <? 10 then String (digit_char n) EmptyString
      else (utoa_fuel f (n / 10) ++ String (digit_char (n mod 10)) EmptyString)%string
  end.

Definition utoa (n : Z) : string := utoa_fuel (S (Z.to_nat (Z.log2 n))) n.

(** [%d] and [%v] of an integer. *)
Definition itoa (z : Z) : string :=
  if z <? 0 then String "-"%char (utoa (- z)) else utoa z.

(** [fmt.Sprintf("%019d", v)]: the digits of [|v|], padded on the left
    with zeros to a width of 19 that counts the sign. *)
Definition Sprintf_019d (v : Z) : string :=
  let ds := utoa (Z.abs v) in
  let sign := if v <? 0 then String "-"%char EmptyString else EmptyString in
  let w := (19 - String.length sign - String.length ds)%nat in
  (sign ++ repeat_byte "0"%char w ++ ds)%string.

(** The [w] low decimal digits of [n], the same text for [0 <= n < 10^w]. *)
Fixpoint zpad (w : nat) (n : Z) : string :=
  match w with
  | O => EmptyString
  | S w' => (zpad w' (n / 10) ++ String (digit_char (n mod 10)) EmptyString)%string
  end.

(* ================================================================= *)
(** * [unicode/utf8] *)

Definition RuneError : Z := 65533.    (* U+FFFD *)
Definition MaxRune : Z := 1114111.    (* U+10FFFF *)

(** A Unicode scalar value: a code point that is not a surrogate. *)
Definition valid_rune (r : Z) : bool :=
  (0 <=? r) && (r <=? MaxRune) && negb ((55296 <=? r) && (r <=? 57343)).

(** [utf8.AppendRune], which is also the conversion [string(rune)]:
    a rune that is not a scalar value is written as U+FFFD. *)
Definition EncodeRune (r : Z) : list Z :=
  if negb (valid_rune r) then [239; 191; 189]
  else if r <=? 127 then [r]
  else if r <=? 2047 then [192 + r / 64; 128 + r mod 64]
  else if r <=? 65535 then
    [224 + r / 4096; 128 + (r / 64) mod 64; 128 + r mod 64]
  else
    [240 + r / 262144; 128 + (r / 4096) mod 64;
     128 + (r / 64) mod 64; 128 + r mod 64].

(** [string(runes)] for [runes []rune]. *)
Definition string_of_runes (rs : list Z) : string :=
  string_of_bytes (flat_map EncodeRune rs).

Definition is_cont (b : Z) : bool := (128 <=? b) && (b <=? 191).

(** The second byte a lead byte of a 3- or 4-byte sequence accepts
    ([utf8.acceptRanges]). *)
Definition accepts2 (b0 b1 : Z) : bool :=
  if b0 =? 224 then (160 <=? b1) && (b1 <=? 191)
  else if b0 =? 237 then (128 <=? b1) && (b1 <=? 159)
  else if b0 =? 240 then (144 <=? b1) && (b1 <=? 191)
  else if b0 =? 244 then (128 <=? b1) && (b1 <=? 143)
  else is_cont b1.

(** [for _, char := range s]: the runes of a byte string, each
    ill-formed byte read as U+FFFD of width 1
    ([utf8.DecodeRuneInString]). *)
Fixpoint decode_runes (bs : list Z) : list Z :=
  match bs with
  | [] => []
  | b0 :: t0 =>
      if b0 <? 128 then b0 :: decode_runes t0
      else if (194 <=? b0) && (b0 <=? 223) then
        match t0 with
        | b1 :: t1 =>
            if is_cont b1
            then ((b0 - 192) * 64 + (b1 - 128)) :: decode_runes t1
            else RuneError :: decode_runes t0
        | _ => RuneError :: decode_runes t0
        end
      else if (224 <=? b0) && (b0 <=? 239) then
        match t0 with
        | b1 :: b2 :: t2 =>
            if accepts2 b0 b1 && is_cont b2
            then ((b0 - 224) * 4096 + (b1 - 128) * 64 + (b2 - 128))
                   :: decode_runes t2
            else RuneError :: decode_runes t0
        | _ => RuneError :: decode_runes t0
        end
      else if (240 <=? b0) && (b0 <=? 244) then
        match t0 with
        | b1 :: b2 :: b3 :: t3 =>
            if accepts2 b0 b1 && is_cont b2 && is_cont b3
            then ((b0 - 240) * 262144 + (b1 - 128) * 4096
                  + (b2 - 128) * 64 + (b3 - 128)) :: decode_runes t3
            else RuneError :: decode_runes t0
        | _ => RuneError :: decode_runes t0
        end
      else RuneError :: decode_runes t0
  end.

Definition runes_of_string (s : string) : list Z :=
  decode_runes (bytes_of_string s).

(* ================================================================= *)
(** * [float64] and [strconv] *)

(** A [float64] is an IEEE 754 binary64 value, modelled by the
    specification floats of the library at precision 53. *)
Definition float64 : Type := spec_float.

Definition MaxFloat64 : float64 := S754_finite false 9007199254740991 971.

Definition f64_sub (x y : float64) : float64 := SFsub 53 1024 x y.
Definition f64_eqb (x y : float64) : bool := SFeqb x y.

(** The binary64 nearest to [num / den] (ties to even), for
    [0 <= num] and [0 < den]; the quotient is cut below the rounding
    position and a sticky bit records what was cut. *)
Definition f64_of_ratio (neg : bool) (num den : Z) : float64 :=
  if num =? 0 then S754_zero neg
  else
    let k := Z.max 0 (Z.log2 den - Z.log2 num + 66) in
    let n2 := num * 2 ^ k in
    let sticky := if n2 mod den =? 0 then 0 else 1 in
    let m := 2 * (n2 / den) + sticky in
    binary_normalize 53 1024 (if neg then - m else m) (- k - 1) neg.

Definition is_digit (b : Z) : bool := (48 <=? b) && (b <=? 57).

(** The leading decimal digits of a byte sequence, as a number and a
    count, and what follows them. *)
Fixpoint take_digits (bs : list Z) (acc : Z) (n : Z) : Z * Z * list Z :=
  match bs with
  | b :: t => if is_digit b then take_digits t (10 * acc + (b - 48)) (n + 1)
              else (acc, n, bs)
  | [] => (acc, n, [])
  end.

Definition strip_sign (bs : list Z) : bool * list Z :=
  match bs with
  | 45 :: t => (true, t)
  | 43 :: t => (false, t)
  | _ => (false, bs)
  end.

(** [strconv.ParseInt(s, 10, 64)]: [None] stands for its syntax and
    range errors. *)
Definition ParseInt64 (s : string) : option Z :=
  let '(neg, body) := strip_sign (bytes_of_string s) in
  match take_digits body 0 0 with
  | (v, n, []) =>
      let v' := if neg then - v else v in
      if (0 <? n) && in_int64 v' then Some v' else None
  | _ => None
  end.

(** [strconv.ParseFloat(s, 64)] on decimal literals, the syntax of
    every JSON number: sign, digits, fraction, exponent.  [None]
    stands for a syntax error and for the range error of a value that
    rounds to an infinity.  Hexadecimal literals and the words for
    infinities and NaN, which no JSON number is, are read as syntax
    errors. *)
Definition ParseFloat64 (s : string) : option float64 :=
  let '(neg, body) := strip_sign (bytes_of_string s) in
  let '(ip, ni, r1) := take_digits body 0 0 in
  let '(fp, nf, r2) :=
    match r1 with
    | 46 :: t => take_digits t 0 0
    | _ => (0, 0, r1)
    end in
  if ni + nf =? 0 then None
  else
    let mant := ip * 10 ^ nf + fp in
    let exp10 :=
      match r2 with
      | [] => Some 0
      | c :: t =>
          if (c =? 101) || (c =? 69) then
            let '(eneg, ebody) := strip_sign t in
            match take_digits ebody 0 0 with
            | (ev, en, []) =>
                if 0 <? en then Some (if eneg then - ev else ev) else None
            | _ => None
            end
          else None
      end in
    match exp10 with
    | None => None
    | Some e =>
        let e' := e - nf in
        let f := if 0 <=? e' then f64_of_ratio neg (mant * 10 ^ e') 1
                 else f64_of_ratio neg mant (10 ^ (- e')) in
        match f with
        | S754_infinity _ => None
        | _ => Some f
        end
    end.

(** ** Shortest decimal text of a [float64] *)

(** The least [d] from [d0] on with [num / den < 10 ^ d]. *)
Fixpoint decimal_point (fuel : nat) (num den d : Z) : Z :=
  match fuel with
  | O => d
  | S f =>
      let below := if 0 <=? d then num <? den * 10 ^ d
                   else num * 10 ^ (- d) <? den in
      if below then d else decimal_point f num den (d + 1)
  end.

(** The [n]-digit decimal nearest to [x / den] that lies between
    [lo / den] and [hi / den], if there is one; [dp] is the position
    of the decimal point of [x / den]. *)
Definition digits_within (incl : bool) (x lo hi den dp n : Z) : option Z :=
  let t := dp - n in
  let P := if 0 <=? t then 1 else 10 ^ (- t) in
  let Q := if 0 <=? t then 10 ^ t else 1 in
  let c0 := (x * P) / (Q * den) in
  let c1 := c0 + 1 in
  let inside c :=
    let v := c * Q * den in
    if incl then (lo * P <=? v) && (v <=? hi * P)
    else (lo * P <? v) && (v <? hi * P) in
  let d0 := x * P - c0 * Q * den in
  let d1 := c1 * Q * den - x * P in
  match inside c0, inside c1 with
  | true, true =>
      if d0 <? d1 then Some c0
      else if d1 <? d0 then Some c1
      else Some (if Z.even c0 then c0 else c1)
  | true, false => Some c0
  | false, true => Some c1
  | false, false => None
  end.

Fixpoint shortest_from (fuel : nat) (incl : bool) (x lo hi den dp n : Z) : Z * Z :=
  match fuel with
  | O => ((x * (if 0 <=? dp - n then 1 else 10 ^ (n - dp)))
            / ((if 0 <=? dp - n then 10 ^ (dp - n) else 1) * den), n)
  | S f =>
      match digits_within incl x lo hi den dp n with
      | Some c => (c, n)
      | None => shortest_from f incl x lo hi den dp (n + 1)
      end
  end.

Fixpoint strip_zeros (fuel : nat) (c : Z) : Z :=
  match fuel with
  | O => c
  | S f => if (c mod 10 =? 0) && negb (c =? 0) then strip_zeros f (c / 10) else c
  end.

(** The shortest digits that read back as [m * 2^e], and the position
    of the decimal point before them: the value is [0.digits * 10^dp]. *)
Definition shortest_digits (m e : Z) : string * Z :=
  let asym := (m =? 2 ^ 52) && (-1074 <? e) in
  let up := if 0 <=? e - 2 then 2 ^ (e - 2) else 1 in
  let den := if 0 <=? e - 2 then 1 else 2 ^ (2 - e) in
  let x := 4 * m * up in
  let lo := (if asym then 4 * m - 1 else 4 * m - 2) * up in
  let hi := (4 * m + 2) * up in
  let d0 := ((Z.log2 x - Z.log2 den - 1) * 30103) / 100000 - 1 in
  let dp := decimal_point 8 x den d0 in
  let '(c, n) := shortest_from 17 (Z.even m) x lo hi den dp 1 in
  let dp' := if c =? 10 ^ n then dp + 1 else dp in
  (utoa (strip_zeros 20 c), dp').

Fixpoint nth_byte (s : string) (i : nat) : ascii :=
  match s, i with
  | String a _, O => a
  | String _ t, S j => nth_byte t j
  | EmptyString, _ => "0"%char
  end.

Fixpoint digits_from (ds : string) (from : Z) (count : nat) : string :=
  match count with
  | O => EmptyString
  | S c =>
      String (if from <? 0 then "0"%char else nth_byte ds (Z.to_nat from))
             (digits_from ds (from + 1) c)
  end.

(** [%e] and [%f] of [strconv.FormatFloat] on shortest digits. *)
Definition fmtE (ds : string) (dp : Z) : string :=
  let nd := String.length ds in
  let ex := dp - 1 in
  (String (nth_byte ds 0) EmptyString
   ++ (if (1 <? nd)%nat then String "."%char (digits_from ds 1 (nd - 1)) else EmptyString)
   ++ String "e"%char (String (if (ex <? 0)%Z then "-"%char else "+"%char) EmptyString)
   ++ (if (Z.abs ex <? 10)%Z then String "0"%char EmptyString else EmptyString)
   ++ utoa (Z.abs ex))%string.

Definition fmtF (ds : string) (dp : Z) : string :=
  let nd := strlen ds in
  ((if (0 <? dp)%Z then digits_from ds 0 (Z.to_nat dp) else String "0"%char EmptyString)
   ++ (if (dp <? nd)%Z then String "."%char (digits_from ds dp (Z.to_nat (nd - dp)))
       else EmptyString))%string.

(** [%v] of a [float64]: [strconv.FormatFloat(f, 'g', -1, 64)], that
    is the shortest digits, in exponent form when the decimal exponent
    is below -4 or at least 6. *)
Definition fmt_float64 (f : float64) : string :=
  match f with
  | S754_nan => "NaN"
  | S754_infinity s => if s then "-Inf" else "+Inf"
  | S754_zero s => if s then "-0" else "0"
  | S754_finite s m e =>
      let '(ds, dp) := shortest_digits (Zpos m) e in
      let body := if (dp - 1 <? -4) || (6 <=? dp - 1) then fmtE ds dp else fmtF ds dp in
      if s then String "-"%char body else body
  end.

(* ================================================================= *)
(** * [encoding/base32] and [strings] *)

Definition b32hex_char (v : Z) : Z := if v <? 10 then 48 + v else 55 + v.

(** The eight characters of a group of five bytes, of which the first
    [keep] are kept and the others are the padding [=]. *)
Definition b32hex_group (b0 b1 b2 b3 b4 : Z) (keep : Z) : list Z :=
  let n := (((b0 * 256 + b1) * 256 + b2) * 256 + b3) * 256 + b4 in
  map (fun i => if i <? keep then b32hex_char ((n / 32 ^ (7 - i)) mod 32) else 61)
      [0; 1; 2; 3; 4; 5; 6; 7].

(** [base32.HexEncoding.Encode]. *)
Fixpoint base32hex (bs : list Z) : list Z :=
  match bs with
  | [] => []
  | [b0] => b32hex_group b0 0 0 0 0 2
  | [b0; b1] => b32hex_group b0 b1 0 0 0 4
  | [b0; b1; b2] => b32hex_group b0 b1 b2 0 0 5
  | [b0; b1; b2; b3] => b32hex_group b0 b1 b2 b3 0 7
  | b0 :: b1 :: b2 :: b3 :: b4 :: rest =>
      (b32hex_group b0 b1 b2 b3 b4 8 ++ base32hex rest)%list
  end.

(** [strings.ReplaceAll(s, old, new)] for one-byte [old] and [new]. *)
Definition ReplaceAll_byte (bs : list Z) (old new : Z) : list Z :=
  map (fun b => if b =? old then new else b) bs.

Definition is_lower (b : Z) : bool := (97 <=? b) && (b <=? 122).
Definition is_upper (b : Z) : bool := (65 <=? b) && (b <=? 90).

(** [strings.isSeparator] on a byte: ASCII letters, digits and the
    underscore are no separators, every other ASCII byte is one. *)
Definition isSeparator (b : Z) : bool :=
  if b <=? 127
  then negb (is_digit b || is_lower b || is_upper b || (b =? 95))
  else false.

Fixpoint Title_bytes (prev : Z) (bs : list Z) : list Z :=
  match bs with
  | [] => []
  | b :: t =>
      (if isSeparator prev && is_lower b then b - 32 else b) :: Title_bytes b t
  end.

(** [strings.Title]: the letter that begins each word in upper case.
    Field names are taken to be ASCII: a byte above 127 is left as it
    is and separates nothing, where [strings.Title] would also map a
    letter outside ASCII to its title case. *)
Definition Title (s : string) : string :=
  string_of_bytes (Title_bytes 32 (bytes_of_string s)).

(* ================================================================= *)
(** * Errors, results and panics *)

Inductive error : Type :=
| ErrorString (msg : string)   (* errors.New, fmt.Errorf *)
| MarshalError                 (* an error of json.Marshal *)
| UnmarshalError.              (* an error of the JSON decoder *)

(** What a call comes to: a value, an [error] returned to the caller,
    or a panic that unwinds the goroutine. *)
Inductive result (A : Type) : Type :=
| Ok (a : A)
| Err (e : error)
| Panic (msg : string).
Arguments Ok {A} a.
Arguments Err {A} e.
Arguments Panic {A} msg.

Definition bind {A B : Type} (r : result A) (k : A -> result B) : result B :=
  match r with
  | Ok a => k a
  | Err e => Err e
  | Panic msg => Panic msg
  end.

Notation "x <- r ;; k" := (bind r (fun x => k))
  (at level 61, r at next level, right associativity).

(* ================================================================= *)
(** * Interface values *)

(** The dynamic values an [interface{}] holds in this package: the
    cases of the type switch of [indexToKey], [nil], and the two
    containers the JSON decoder produces. *)
Inductive value : Type :=
| VNil
| VString (s : string)
| VNumber (n : string)                 (* json.Number, a string type *)
| VInt64 (z : Z)
| VFloat64 (f : float64)
| VInt (z : Z)
| VBool (b : bool)
| VSlice (l : list value)              (* []interface{} *)
| VMap (m : list (string * value)).    (* map[string]interface{} *)

(** A [map[string]interface{}]: the first binding of a key is its
    mapping, and [mapSet] keeps one binding per key. *)
Definition gomap : Type := list (string * value).

Fixpoint mapGet (m : gomap) (k : string) : option value :=
  match m with
  | [] => None
  | (k', v) :: t => if String.eqb k k' then Some v else mapGet t k
  end.

(** [m[k]]: the zero value [nil] for a missing key (and a nil map). *)
Definition mapIndex (m : gomap) (k : string) : value :=
  match mapGet m k with
  | Some v => v
  | None => VNil
  end.

Fixpoint mapSet (m : gomap) (k : string) (v : value) : gomap :=
  match m with
  | [] => [(k, v)]
  | (k', v') :: t =>
      if String.eqb k k' then (k, v) :: t else (k', v') :: mapSet t k v
  end.

(** [reflect.TypeOf(v).String()], and ["nil"] for the nil interface. *)
Definition typName (v : value) : string :=
  match v with
  | VNil => "nil"
  | VString _ => "string"
  | VNumber _ => "json.Number"
  | VInt64 _ => "int64"
  | VFloat64 _ => "float64"
  | VInt _ => "int"
  | VBool _ => "bool"
  | VSlice _ => "[]interface {}"
  | VMap _ => "map[string]interface {}"
  end.

Fixpoint insert_by_key (kv : string * string) (l : list (string * string))
  : list (string * string) :=
  match l with
  | [] => [kv]
  | kv' :: t =>
      if String.leb (fst kv) (fst kv') then kv :: l
      else kv' :: insert_by_key kv t
  end.

Definition sort_by_key (l : list (string * string)) : list (string * string) :=
  fold_right insert_by_key [] l.

(** The verb [%v] of [fmt]; a map prints its keys in sorted order. *)
Fixpoint fmt_v (v : value) : string :=
  match v with
  | VNil => "<nil>"
  | VString s => s
  | VNumber n => n
  | VInt64 z => itoa z
  | VFloat64 f => fmt_float64 f
  | VInt z => itoa z
  | VBool b => if b then "true" else "false"
  | VSlice l => ("[" ++ join " " (map fmt_v l) ++ "]")%string
  | VMap m =>
      let shown := map (fun kv => match kv with (k, x) => (k, fmt_v x) end) m in
      ("map["
       ++ join " " (map (fun kv => (fst kv ++ ":" ++ snd kv)%string) (sort_by_key shown))
       ++ "]")%string
  end.

(** [fmt.Sprintf] with the format ["%v:%v:...:%v"], one verb a value. *)
Definition Sprintf_v_colon (values : list value) : string :=
  join ":" (map fmt_v values).

(** [a != b] on interface values: values of different dynamic types
    differ; slices and maps are not comparable and the comparison of
    two of them panics. *)
Definition ifaceNeq (a b : value) : result bool :=
  match a, b with
  | VNil, VNil => Ok false
  | VString x, VString y => Ok (negb (String.eqb x y))
  | VNumber x, VNumber y => Ok (negb (String.eqb x y))
  | VInt64 x, VInt64 y => Ok (negb (x =? y))
  | VFloat64 x, VFloat64 y => Ok (negb (f64_eqb x y))
  | VInt x, VInt y => Ok (negb (x =? y))
  | VBool x, VBool y => Ok (negb (Bool.eqb x y))
  | VSlice _, VSlice _ =>
      Panic "runtime error: comparing uncomparable type []interface {}"
  | VMap _, VMap _ =>
      Panic "runtime error: comparing uncomparable type map[string]interface {}"
  | _, _ => Ok true
  end.

(* ================================================================= *)
(** * [encoding/json] *)

(** A JSON text, by its structure; a number keeps its literal and a
    string its content. *)
Inductive json : Type :=
| JNull
| JBool (b : bool)
| JNumber (lit : string)
| JString (s : string)
| JArray (l : list json)
| JObject (fields : list (string * json)).

(** Decoding into an [interface{}].  With [UseNumber] a number is its
    literal as a [json.Number]; without, it is a [float64], and a
    literal out of its range is an error ([None]).  Of two members of
    one name the later wins. *)
Fixpoint decodeValue (useNumber : bool) (j : json) : option value :=
  match j with
  | JNull => Some VNil
  | JBool b => Some (VBool b)
  | JNumber lit =>
      if useNumber then Some (VNumber lit)
      else option_map VFloat64 (ParseFloat64 lit)
  | JString s => Some (VString s)
  | JArray l =>
      option_map VSlice
        ((fix elements (l : list json) : option (list value) :=
            match l with
            | [] => Some []
            | x :: t =>
                match decodeValue useNumber x, elements t with
                | Some v, Some vs => Some (v :: vs)
                | _, _ => None
                end
            end) l)
  | JObject fs =>
      option_map VMap
        ((fix members (fs : list (string * json)) (acc : gomap) : option gomap :=
            match fs with
            | [] => Some acc
            | (k, x) :: t =>
                match decodeValue useNumber x with
                | Some v => members t (mapSet acc k v)
                | None => None
                end
            end) fs [])
  end.

(** Decoding into a [map[string]interface{}]: an object gives the
    map, [null] gives the nil map ([None]), anything else is an error. *)
Definition decodeMap (useNumber : bool) (j : json) : result (option gomap) :=
  match j with
  | JNull => Ok None
  | JObject _ =>
      match decodeValue useNumber j with
      | Some (VMap m) => Ok (Some m)
      | _ => Err UnmarshalError
      end
  | _ => Err UnmarshalError
  end.

(** [json.Unmarshal] of ["[" blob "," ... "," blob "]"] into a
    [[]map[string]interface{}]. *)
Fixpoint decodeList (blobs : list json) : result (list (option gomap)) :=
  match blobs with
  | [] => Ok []
  | b :: t =>
      m <- decodeMap false b ;;
      ms <- decodeList t ;;
      Ok (m :: ms)
  end.

(** An instance handed to [Save] is known to it only by what
    [json.Marshal] makes of it: an error, or its JSON text. *)
Definition instance : Type := option json.

Definition Marshal (i : instance) : result json :=
  match i with
  | Some js => Ok js
  | None => Err MarshalError
  end.

(** Indexing a map that may be nil. *)
Definition mapIndexNil (m : option gomap) (k : string) : value :=
  match m with
  | Some m' => mapIndex m' k
  | None => VNil
  end.

(* ================================================================= *)
(** * The store *)

(** [store.Store], as far as the package uses it: [Write] (an upsert),
    [Delete] and [Read] with [store.ReadPrefix()].  The store is an
    ordered map from keys to blobs, kept as a list sorted by key;
    a prefix scan returns its records in key order.  The calls do not
    fail: I/O errors are outside the model, and so is what [Debug]
    prints. *)
Definition store : Type := list (string * json).

Fixpoint storeWrite (s : store) (k : string) (v : json) : store :=
  match s with
  | [] => [(k, v)]
  | (k', v') :: t =>
      match String.compare k k' with
      | Lt => (k, v) :: s
      | Eq => (k, v) :: t
      | Gt => (k', v') :: storeWrite t k v
      end
  end.

Definition storeDelete (s : store) (k : string) : store :=
  filter (fun r => negb (String.eqb k (fst r))) s.

Definition storeRead (s : store) (prefix : string) : list (string * json) :=
  filter (fun r => String.prefix prefix (fst r)) s.

Fixpoint storeGet (s : store) (k : string) : option json :=
  match s with
  | [] => None
  | (k', v) :: t => if String.eqb k k' then Some v else storeGet t k
  end.

(** The calls that change the store, in the order they were issued. *)
Inductive op : Type :=
| OpWrite (k : string) (v : json)
| OpDelete (k : string).

(* ================================================================= *)
(** * The package: indexes and queries *)

(** [type OrderType string]. *)
Definition OrderType : Type := string.
Definition OrderTypeUnordered : OrderType := "unordered"%string.
Definition OrderTypeAsc : OrderType := "ascending"%string.
Definition OrderTypeDesc : OrderType := "descending"%string.

Definition queryTypeEq : string := "eq".
Definition indexTypeEq : string := "eq".

Record Order : Type := mkOrder {
  Order_FieldName : string;
  Order_Type : OrderType
}.

Record Index : Type := mkIndex {
  FieldName : string;
  Type_ : string;
  Order_ : Order;
  Unique : bool;
  StringOrderPadLength : Z;
  Base32Encode : bool
}.

(** A [Query] embeds an [Index], whose fields it promotes, and has an
    [Order] of its own, which is the one [q.Order] names. *)
Record Query : Type := mkQuery {
  Query_Index : Index;
  Query_Order : Order;
  Value : value;
  Offset : Z;
  Limit : Z
}.

Record ModelOptions : Type := mkModelOptions {
  Debug : bool;
  IdIndex : Index
}.

(** The [model] struct without its store, which the operations below
    take and return. *)
Record model : Type := mkModel {
  namespace : string;
  indexes : list Index;
  options : ModelOptions
}.

(** The zero values of the structs. *)
Definition zeroOrder : Order := mkOrder EmptyString EmptyString.
Definition zeroIndex : Index := mkIndex EmptyString EmptyString zeroOrder false 0 false.

Definition ToQuery (i : Index) (v : value) : Query :=
  mkQuery i (Order_ i) v 0 0.

Definition Indexes (ixs : list Index) : list Index := ixs.

Definition ByEquality (fieldName : string) : Index :=
  mkIndex fieldName indexTypeEq (mkOrder fieldName OrderTypeAsc) false 16 false.

Definition defaultIndex : Index :=
  let idIndex := ByEquality "id" in
  mkIndex (FieldName idIndex) (Type_ idIndex)
          (mkOrder (Order_FieldName (Order_ idIndex)) OrderTypeUnordered)
          (Unique idIndex) (StringOrderPadLength idIndex) (Base32Encode idIndex).

Definition NewModel (ns : string) (ixs : list Index) (opts : option ModelOptions) : model :=
  let debug := match opts with Some o => Debug o | None => false end in
  let idIndex := match opts with Some o => IdIndex o | None => zeroIndex end in
  let idIndex := if String.eqb (Type_ idIndex) EmptyString then defaultIndex else idIndex in
  mkModel ns ixs (mkModelOptions debug idIndex).

Definition Equals (fieldName : string) (v : value) : Query :=
  mkQuery (mkIndex fieldName queryTypeEq (mkOrder fieldName OrderTypeAsc) false 0 false)
          (mkOrder fieldName OrderTypeAsc) v 0 0.

Definition indexMatchesQuery (i : Index) (q : Query) : bool :=
  String.eqb (FieldName i) (FieldName (Query_Index q))
  && String.eqb (Type_ i) (Type_ (Query_Index q))
  && String.eqb (Order_Type (Order_ i)) (Order_Type (Query_Order q)).

Definition indexesMatch (i j : Index) : bool :=
  String.eqb (FieldName i) (FieldName j)
  && String.eqb (Type_ i) (Type_ j)
  && String.eqb (Order_Type (Order_ i)) (Order_Type (Order_ j)).

(* ================================================================= *)
(** * The key encoder *)

(** [indexPrefix]: the first part of a key after the namespace. *)
Definition indexPrefix (i : Index) : string :=
  if negb (String.eqb (Order_Type (Order_ i)) OrderTypeUnordered) then
    let desc := if String.eqb (Order_Type (Order_ i)) OrderTypeDesc
                then "Desc"%string else EmptyString in
    ("by" ++ desc ++ "Ordered" ++ Title (FieldName i))%string
  else ("by" ++ Title (FieldName i))%string.

(** The runes of an ordered string key before they are made a string:
    complemented for a descending index, then padded to the pad
    length. *)
Definition orderedRunes (i : Index) (fieldValue : string) : list Z :=
  let desc := String.eqb (Order_Type (Order_ i)) OrderTypeDesc in
  let runes := if desc
               then map (fun char => MaxRune - char) (runes_of_string fieldValue)
               else runes_of_string fieldValue in
  let len := Z.of_nat (List.length runes) in
  if len <? StringOrderPadLength i then
    (runes ++ repeat (if desc then MaxRune else 32)
                     (Z.to_nat (StringOrderPadLength i - len)))%list
  else runes.

(** [getOrderedStringFieldKey]: pad, reverse and optionally base32
    encode a string key. *)
Definition getOrderedStringFieldKey (i : Index) (fieldValue : string) : string :=
  let bs := flat_map EncodeRune (orderedRunes i fieldValue) in
  if String.eqb (Order_Type (Order_ i)) OrderTypeDesc then
    if Base32Encode i
    then string_of_bytes (ReplaceAll_byte (base32hex bs) 61 48)
    else string_of_bytes bs
  else string_of_bytes bs.

(** The filter and the order field of an index differ. *)
Definition orderDiffers (i : Index) : bool :=
  negb (String.eqb (FieldName i) (Order_FieldName (Order_ i)))
  && negb (String.eqb (Order_FieldName (Order_ i)) EmptyString).

(** The field whose value is encoded for ordering: the order field
    where it differs from the filter field, else the filter field. *)
Definition orderFieldKey (i : Index) : string :=
  if orderDiffers i then Order_FieldName (Order_ i) else FieldName i.

(** The type switch of [indexToKey]: the value that stands in the key
    for the order field. *)
Definition orderKeyPart (i : Index) (orderFieldKey : string) (orderFieldValue : value)
  : result value :=
  let desc := String.eqb (Order_Type (Order_ i)) OrderTypeDesc in
  match orderFieldValue with
  | VString v =>
      if negb (String.eqb (Order_Type (Order_ i)) OrderTypeUnordered)
      then Ok (VString (getOrderedStringFieldKey i v))
      else Ok (VString v)
  | VNumber v =>
      match ParseInt64 v with
      | Some i64 =>
          if desc then Ok (VString (Sprintf_019d (wrap64 (MaxInt64 - i64))))
          else Ok (VString (Sprintf_019d i64))
      | None =>
          match ParseFloat64 v with
          | Some f64 =>
              if desc then Ok (VFloat64 (f64_sub MaxFloat64 f64))
              else Ok (VNumber v)
          | None =>
              Panic ("bug in code, unhandled json.Number type: "
                     ++ typName orderFieldValue ++ " for field " ++ FieldName i)
          end
      end
  | VInt64 v =>
      if desc then Ok (VString (Sprintf_019d (wrap64 (MaxInt64 - v))))
      else Ok (VString (Sprintf_019d v))
  | VFloat64 v =>
      if desc then Ok (VFloat64 (f64_sub MaxFloat64 v))
      else Ok (VFloat64 v)
  | VInt v =>
      if desc then Ok (VString (Sprintf_019d (wrap64 (MaxInt32 - v))))
      else Ok (VString (Sprintf_019d v))
  | VBool v => Ok (VBool v)
  | _ =>
      Panic ("bug in code, unhandled type: "
             ++ typName orderFieldValue ++ " for field " ++ orderFieldKey)
  end.

(** [indexToKey]: [appendID] is true when saving and false when
    querying. *)
Definition indexToKey (d : model) (i : Index) (id : value) (entry : gomap)
  (appendID : bool) : result string :=
  let values := [VString (namespace d); VString (indexPrefix i)] in
  let filterFieldValue := mapIndex entry (FieldName i) in
  let orderFieldValue := mapIndex entry (orderFieldKey i) in
  values <-
    (if String.eqb (Type_ i) indexTypeEq then
       let values := if orderDiffers i then (values ++ [filterFieldValue])%list
                     else values in
       part <- orderKeyPart i (orderFieldKey i) orderFieldValue ;;
       Ok (values ++ [part])%list
     else Ok values) ;;
  let values := if appendID then (values ++ [id])%list else values in
  Ok (Sprintf_v_colon values).

Definition queryToListKey (d : model) (i : Index) (q : Query) : result string :=
  match Value q with
  | VNil => Ok (Sprintf_v_colon [VString (namespace d); VString (indexPrefix i)])
  | _ =>
      if orderDiffers i
      then Ok (Sprintf_v_colon [VString (namespace d); VString (indexPrefix i); Value q])
      else indexToKey d i (VString EmptyString) [(FieldName i, Value q)] false
  end.

(* ================================================================= *)
(** * The indexer *)

Definition noIndexError (q : Query) : error :=
  ErrorString ("For query type '" ++ Type_ (Query_Index q) ++ "', field '"
               ++ FieldName (Query_Index q) ++ "' does not match any indexes").

Definition ErrorNotFound : error := ErrorString "not found".
Definition ErrorMultipleRecordsFound : error := ErrorString "multiple records found".

(** The indexes a query is matched against, the identity index last:
    [append(d.indexes, d.options.IdIndex)]. *)
Definition allIndexes (d : model) : list Index :=
  (indexes d ++ [IdIndex (options d)])%list.

(** [List], for a result of type [[]map[string]interface{}], which is
    how [Save] and [Delete] call it. *)
Definition List (d : model) (s : store) (query : Query)
  : result (list (option gomap)) :=
  match find (fun index => indexMatchesQuery index query) (allIndexes d) with
  | Some index =>
      k <- queryToListKey d index query ;;
      decodeList (map snd (storeRead s k))
  | None => Err (noIndexError query)
  end.

(** [Read], for a result of type [map[string]interface{}]. *)
Definition Read (d : model) (s : store) (query : Query) : result (option gomap) :=
  match find (fun index => indexMatchesQuery index query) (allIndexes d) with
  | Some index =>
      k <- queryToListKey d index query ;;
      match storeRead s k with
      | [] => Err ErrorNotFound
      | [rec] => decodeMap false (snd rec)
      | _ => Err ErrorMultipleRecordsFound
      end
  | None => Err (noIndexError query)
  end.

(** One round of the uniqueness loop of [Save]. *)
Definition uniqueCheck (d : model) (s : store) (m : gomap) (index : Index)
  : result unit :=
  if negb (Unique index) then Ok tt
  else
    res <- List d s (ToQuery index (mapIndex m (FieldName index))) ;;
    match res with
    | [] => Ok tt
    | [r] =>
        differs <- ifaceNeq (mapIndexNil r (FieldName (IdIndex (options d))))
                            (mapIndex m (FieldName (IdIndex (options d)))) ;;
        if differs then Err (ErrorString "Unique index violated") else Ok tt
    | _ => Err (ErrorString "Multiple entries found for unique index")
    end.

Fixpoint uniqueChecks (d : model) (s : store) (m : gomap) (ixs : list Index)
  : result unit :=
  match ixs with
  | [] => Ok tt
  | index :: rest =>
      _ <- uniqueCheck d s m index ;;
      uniqueChecks d s m rest
  end.

(** The stale key of one index, if [Save] is to delete one: the index
    is not the default identity index, there is an old entry, and its
    value for the field is not the new one. *)
Definition staleKey (d : model) (index : Index) (id : value)
  (oldEntry : option gomap) (m : gomap) : result (option string) :=
  if negb (indexesMatch defaultIndex index) then
    match oldEntry with
    | Some old =>
        changed <- ifaceNeq (mapIndex old (FieldName index))
                            (mapIndex m (FieldName index)) ;;
        if changed then
          k <- indexToKey d index id old true ;;
          Ok (Some k)
        else Ok None
    | None => Ok None
    end
  else Ok None.

(** The write loop of [Save]: for each index the stale key is deleted
    and the new key written.  What was written before an error or a
    panic stays written. *)
Fixpoint saveIndexes (d : model) (js : json) (id : value) (oldEntry : option gomap)
  (m : gomap) (ixs : list Index) (s : store)
  : result unit * store * list op :=
  match ixs with
  | [] => (Ok tt, s, [])
  | index :: rest =>
      match staleKey d index id oldEntry m with
      | Ok stale =>
          let s1 := match stale with Some k => storeDelete s k | None => s end in
          let l1 := match stale with Some k => [OpDelete k] | None => [] end in
          match indexToKey d index id m true with
          | Ok k =>
              let '(r, s2, l2) :=
                saveIndexes d js id oldEntry m rest (storeWrite s1 k js) in
              (r, s2, (l1 ++ OpWrite k js :: l2)%list)
          | Err e => (Err e, s1, l1)
          | Panic msg => (Panic msg, s1, l1)
          end
      | Err e => (Err e, s, [])
      | Panic msg => (Panic msg, s, [])
      end
  end.

(** What [Save] does before it writes: marshal and decode the
    instance, fetch the old entry by identity, check the unique
    indexes.  It gives the JSON text, the decoded record and the old
    entry. *)
Definition savePrepare (d : model) (s : store) (inst : instance)
  : result (json * gomap * option gomap) :=
  js <- Marshal inst ;;
  m0 <- decodeMap true js ;;
  let m := match m0 with Some m' => m' | None => [] end in
  let idQuery := ToQuery (IdIndex (options d))
                         (mapIndex m (FieldName (IdIndex (options d)))) in
  oldEntryList <- List d s idQuery ;;
  let oldEntry := match oldEntryList with o :: _ => o | [] => None end in
  _ <- uniqueChecks d s m (indexes d) ;;
  Ok (js, m, oldEntry).

Definition Save (d : model) (s : store) (inst : instance)
  : result unit * store * list op :=
  match savePrepare d s inst with
  | Ok (js, m, oldEntry) =>
      let id := mapIndex m (FieldName (IdIndex (options d))) in
      saveIndexes d js id oldEntry m (allIndexes d) s
  | Err e => (Err e, s, [])
  | Panic msg => (Panic msg, s, [])
  end.

Definition Delete (d : model) (s : store) (query : Query)
  : result unit * store * list op :=
  let defInd := defaultIndex in
  if negb (indexMatchesQuery defInd query)
  then (Err (ErrorString "Delete query does not match default index"), s, [])
  else
    match List d s query with
    | Ok [] => (Err (ErrorString "No entry found to delete"), s, [])
    | Ok (r :: _) =>
        let idf := FieldName (IdIndex (options d)) in
        match indexToKey d defInd (mapIndexNil r idf) [(idf, mapIndexNil r idf)] true with
        | Ok key => (Ok tt, storeDelete s key, [OpDelete key])
        | Err e => (Err e, s, [])
        | Panic msg => (Panic msg, s, [])
        end
    | Err e => (Err e, s, [])
    | Panic msg => (Panic msg, s, [])
    end.

(* ================================================================= *)
(** * The earlier variant of the package ([src/model/model.go]) *)

Module Db.

Record Index : Type := mkIndex {
  FieldName : string;
  Type_ : string;      (* eg. equality *)
  Ordering : bool      (* ASC or DESC ordering *)
}.

Record Query : Type := mkQuery {
  QType : string;
  QFieldName : string;
  QValue : value;
  QOrdering : bool
}.

(** The [db] struct without its store; [debug] only prints. *)
Record db : Type := mkDb {
  indexes : list Index;
  debug : bool
}.

Definition NewDB (ixs : list Index) : db := mkDb ixs true.

Definition ByEq (fieldName : string) : Index := mkIndex fieldName indexTypeEq false.

Definition Eq (fieldName : string) (v : value) : Query :=
  mkQuery queryTypeEq fieldName v false.

Definition Ord (q : Query) (desc : bool) : Query :=
  mkQuery (QType q) (QFieldName q) (QValue q) desc.

Definition indexMatchesQuery (i : Index) (q : Query) : bool :=
  String.eqb (Type_ i) (QType q) && Bool.eqb (Ordering i) (QOrdering q).

Definition queryToListKey (q : Query) : string :=
  ("by" ++ QFieldName q ++ ":" ++ fmt_v (QValue q))%string.

Definition indexToSaveKey (i : Index) (id : string) (m : gomap) : string :=
  ("by" ++ FieldName i ++ ":" ++ fmt_v (mapIndex m (FieldName i)) ++ ":" ++ id)%string.

(** [id, ok := m[k].(string)] followed by [!ok || len(id) == 0]. *)
Definition usableID (m : gomap) (k : string) : option string :=
  match mapIndex m k with
  | VString id => if (String.length id =? 0)%nat then None else Some id
  | _ => None
  end.

Definition missingID : error :=
  ErrorString "ID of objects must marshal to JSON key 'ID' or 'id'".

Fixpoint saveIndexes (js : json) (id : string) (m : gomap) (ixs : list Index)
  (s : store) : store * list op :=
  match ixs with
  | [] => (s, [])
  | index :: rest =>
      let k := indexToSaveKey index id m in
      let '(s', l) := saveIndexes js id m rest (storeWrite s k js) in
      (s', OpWrite k js :: l)
  end.

Definition Save (d : db) (s : store) (inst : instance)
  : result unit * store * list op :=
  match Marshal inst with
  | Ok js =>
      match decodeMap false js with
      | Ok m0 =>
          let m := match m0 with Some m' => m' | None => [] end in
          let id := match usableID m "ID" with
                    | Some id => Some id
                    | None => usableID m "id"
                    end in
          match id with
          | Some id =>
              let '(s', l) := saveIndexes js id m (indexes d) (storeWrite s id js) in
              (Ok tt, s', OpWrite id js :: l)
          | None => (Err missingID, s, [])
          end
      | Err e => (Err e, s, [])
      | Panic msg => (Panic msg, s, [])
      end
  | Err e => (Err e, s, [])
  | Panic msg => (Panic msg, s, [])
  end.

Definition List (d : db) (s : store) (query : Query) : result (list (option gomap)) :=
  match indexes d with
  | [] => Err (ErrorString "No indexes found")
  | _ =>
      match find (fun index => indexMatchesQuery index query) (indexes d) with
      | Some _ => decodeList (map snd (storeRead s (queryToListKey query)))
      | None =>
          Err (ErrorString ("Query type " ++ QType query ++ ", field "
                            ++ QFieldName query ++ " does not match any indexes"))
      end
  end.

End Db.

(* ================================================================= *)
(** * Notions the statements use *)

(** The record [Save] decodes from the JSON text of an instance, and
    its identity under a model. *)
Definition recordOf (js : json) : gomap :=
  match decodeMap true js with
  | Ok (Some m) => m
  | _ => []
  end.

Definition idOf (d : model) (js : json) : value :=
  mapIndex (recordOf js) (FieldName (IdIndex (options d))).

(** The store a call leaves, and the store after a sequence of saves. *)
Definition storeAfter (r : result unit * store * list op) : store := snd (fst r).

Definition saveAll (d : model) (records : list json) : store :=
  fold_left (fun s js => storeAfter (Save d s (Some js))) records [].



(** The byte order of keys, on byte sequences. *)
Fixpoint lexcmp (a b : list Z) : comparison :=
  match a, b with
  | [], [] => Eq
  | [], _ :: _ => Lt
  | _ :: _, [] => Gt
  | x :: a', y :: b' =>
      if x <? y then Lt else if y <? x then Gt else lexcmp a' b'
  end.

Definition in_byte (b : Z) : Prop := 0 <= b < 256.

(** The UTF-8 text of a sequence of runes. *)
Definition utf8 (rs : list Z) : list Z := flat_map EncodeRune rs.

(** A sequence of runes that is well-formed text: scalar values only. *)
Definition scalars (rs : list Z) : Prop := Forall (fun r => valid_rune r = true) rs.


(** A rune whose complement [MaxRune - r] is a scalar value as it is
    itself: a scalar value outside U+102000..U+1027FF, the runes whose
    complement is a surrogate. *)
Definition complementable (r : Z) : bool :=
  valid_rune r && valid_rune (MaxRune - r).

(** The calls of a log applied to a store, in order. *)
Definition applyOp (s : store) (o : op) : store :=
  match o with
  | OpWrite k v => storeWrite s k v
  | OpDelete k => storeDelete s k
  end.

Definition replay (log : list op) (s : store) : store := fold_left applyOp log s.

(** A call that changes the key [k]. *)
Definition touches (k : string) (o : op) : bool :=
  match o with
  | OpWrite k' _ => String.eqb k k'
  | OpDelete k' => String.eqb k k'
  end.

(** A call on a key of the namespace of a model. *)
Definition inNamespace (d : model) (o : op) : bool :=
  String.prefix (namespace d ++ ":")
    (match o with OpWrite k _ => k | OpDelete k => k end).

(** What [Read] makes of the records [List] returns for the same
    query. *)
Definition readOutcome (res : list (option gomap)) : result (option gomap) :=
  match res with
  | [] => Err ErrorNotFound
  | [r] => Ok r
  | _ => Err ErrorMultipleRecordsFound
  end.

(** The loop of [decodeValue] over the members of an object, as a
    function of its own. *)
Fixpoint decodeMembers (useNumber : bool) (fs : list (string * json)) (acc : gomap)
  : option gomap :=
  match fs with
  | [] => Some acc
  | (k, x) :: t =>
      match decodeValue useNumber x with
      | Some v => decodeMembers useNumber t (mapSet acc k v)
      | None => None
      end
  end.

(** Two byte sequences differ at some position, and at the first such
    position the first one has the lesser byte. *)
Fixpoint firstDiffBelow (a b : list Z) : bool :=
  match a, b with
  | x :: a', y :: b' =>
      if x <? y then true else if y <? x then false else firstDiffBelow a' b'
  | _, _ => false
  end.

(** The base32 text of [getOrderedStringFieldKey]: the encoding with
    its padding [=] replaced by [0]. *)
Definition armor (bs : list Z) : list Z := ReplaceAll_byte (base32hex bs) 61 48.

(** The [w] low digits of [n] in base 32, in the alphabet of the
    encoding. *)
Fixpoint b32digits (w : nat) (n : Z) : list Z :=
  match w with
  | O => []
  | S w' => (b32digits w' (n / 32) ++ [b32hex_char (n mod 32)])%list
  end.

(** The number [k] bytes spell, most significant first, bytes that
    are missing read as zero. *)
Fixpoint bigEndian (k : nat) (l : list Z) : Z :=
  match k with
  | O => 0
  | S k' =>
      match l with
      | [] => 0
      | x :: t => x * 256 ^ Z.of_nat k' + bigEndian k' t
      end
  end.

(** The integer a record holds under a field, as [Save] reads it. *)
Definition intField (f : string) (js : json) : option Z :=
  match mapIndex (recordOf js) f with
  | VNumber lit => ParseInt64 lit
  | _ => None
  end.

(** Two records hold integers under a field, the first one at most
    the second. *)
Definition fieldAscends (f : string) (x y : json) : Prop :=
  match intField f x, intField f y with
  | Some a, Some b => a <= b
  | _, _ => False
  end.

(** The order of the records of a store. *)
Definition keyBefore (x y : string * json) : Prop :=
  String.compare (fst x) (fst y) = Lt.

(** A record of a store that holds the records of a model with one
    index, [ByEquality f], on an integer field: its blob is one of
    [records], and if its key is under the prefix of the index, the
    key is made of the padded digits of the integer of the blob. *)
Definition orderedEntry (ns f : string) (records : list json) (r : string * json) : Prop :=
  In (snd r) records
  /\ (String.prefix (ns ++ ":" ++ indexPrefix (ByEquality f)) (fst r) = true ->
      exists a t,
        intField f (snd r) = Some a /\ 0 <= a <= MaxInt64
        /\ fst r = (ns ++ ":" ++ indexPrefix (ByEquality f) ++ ":" ++ zpad 19 a ++ t)%string).

Definition orderedStore (ns f : string) (records : list json) (s : store) : Prop :=
  StronglySorted keyBefore s /\ Forall (orderedEntry ns f records) s.

(* ================================================================= *)
(** * Models and records of the examples *)

(** Persons indexed by age, ascending. *)
Definition ageModel : model := NewModel "ns" [ByEquality "age"] None.

Definition person (id age : string) : json :=
  JObject [("id"%string, JString id); ("age"%string, JNumber age)].

Definition onePerson : store := saveAll ageModel [person "1" "30"].

Definition descAge : Index :=
  mkIndex "age" indexTypeEq (mkOrder "age" OrderTypeDesc) false 16 false.

(** Accounts with a unique index on the mail address. *)
Definition uniqueEmail : Index :=
  mkIndex "email" indexTypeEq (mkOrder "email" OrderTypeAsc) true 16 false.

Definition emailModel : model := NewModel "ns" [uniqueEmail] None.

Definition account (id email : string) : json :=
  JObject [("id"%string, JString id); ("email"%string, JString email)].

(** Records indexed by name, ascending and descending. *)
Definition nameIndex : Index := ByEquality "name".

Definition descName : Index :=
  mkIndex "name" indexTypeEq (mkOrder "name" OrderTypeDesc) false 16 false.

Definition nameModel : model := NewModel "ns" [nameIndex] None.

Definition named (id name : string) : json :=
  JObject [("id"%string, JString id); ("name"%string, JString name)].



(** The descending index on the name, with base32 text. *)
Definition descNameArmored : Index :=
  mkIndex "name" indexTypeEq (mkOrder "name" OrderTypeDesc) false 16 true.

(** A store with a key outside the namespace of the models. *)
Definition foreignStore : store := [("other:1"%string, JNull)].


(** The earlier variant with an index on the age, and what a person
    decodes to. *)
Definition ageDb : Db.db := Db.NewDB [Db.ByEq "age"].

Definition decodedPerson30 : option gomap :=
  Some [("id"%string, VString "1");
        ("age"%string, VFloat64 (S754_finite false 8444249301319680 (-48)))].

Definition decodedPerson25 : option gomap :=
  Some [("id"%string, VString "2");
        ("age"%string, VFloat64 (S754_finite false 7036874417766400 (-48)))].

(* ================================================================= *)
(** * Tactics *)

(** Linear arithmetic with division and remainder by constants. *)
Ltac dlia := Z.div_mod_to_equations; lia.

(** One comparison of the goal is decided both ways; the branch the
    hypotheses contradict is closed by [solver]. *)
Ltac decide_test solver :=
  let by_spec spec x y := (destruct (spec x y)) in
  match goal with
  | |- context [Z.leb ?x ?y] => by_spec Z.leb_spec x y
  | |- context [Z.ltb ?x ?y] => by_spec Z.ltb_spec x y
  | |- context [Z.eqb ?x ?y] => by_spec Z.eqb_spec x y
  end;
  cbn [andb orb negb]; try (exfalso; solver).

Ltac zcase := decide_test dlia.

Ltac zcase' := decide_test lia.

(* ================================================================= *)
(** * The store: reads after writes and deletes *)

Lemma string_compare_refl (s : string) : String.compare s s = Eq.
Proof.
  pose proof (String.compare_antisym s s) as A.
  destruct (String.compare s s); simpl in A; congruence.
Qed.

Lemma storeGet_write_same (s : store) (k : string) (v : json) :
  storeGet (storeWrite s k v) k = Some v.
Proof.
  induction s as [|[k' v'] t IH]; simpl.
  - now rewrite String.eqb_refl.
  - destruct (String.compare k k') eqn:C; simpl.
    + now rewrite String.eqb_refl.
    + now rewrite String.eqb_refl.
    + destruct (String.eqb k k') eqn:E; [|exact IH].
      apply String.eqb_eq in E. subst k'.
      rewrite string_compare_refl in C. discriminate.
Qed.

Lemma storeGet_write_other (s : store) (k k0 : string) (v : json) :
  k0 <> k -> storeGet (storeWrite s k v) k0 = storeGet s k0.
Proof.
  intros N. induction s as [|[k' v'] t IH]; simpl.
  - destruct (String.eqb k0 k) eqn:E; [apply String.eqb_eq in E; contradiction|reflexivity].
  - destruct (String.compare k k') eqn:C; simpl.
    + apply String.compare_eq_iff in C. subst k'.
      destruct (String.eqb k0 k) eqn:E; [apply String.eqb_eq in E; contradiction|reflexivity].
    + destruct (String.eqb k0 k) eqn:E; [apply String.eqb_eq in E; contradiction|reflexivity].
    + destruct (String.eqb k0 k'); [reflexivity|exact IH].
Qed.


Lemma storeGet_delete_other (s : store) (k k0 : string) :
  k0 <> k -> storeGet (storeDelete s k) k0 = storeGet s k0.
Proof.
  intros N. induction s as [|[k' v'] t IH]; simpl; [reflexivity|].
  destruct (String.eqb k k') eqn:E; simpl.
  - apply String.eqb_eq in E. subst k'.
    destruct (String.eqb k0 k) eqn:E0; [apply String.eqb_eq in E0; contradiction|exact IH].
  - destruct (String.eqb k0 k'); [reflexivity|exact IH].
Qed.


(* ================================================================= *)
(** * Keys: their shape and their prefixes *)

Lemma prefix_app_same (x p q : string) :
  String.prefix (x ++ p) (x ++ q) = String.prefix p q.
Proof.
  induction x as [|a x IH]; [reflexivity|].
  cbn [String.append String.prefix].
  destruct (ascii_dec a a); [exact IH|congruence].
Qed.

Lemma prefix_empty (q : string) : String.prefix EmptyString q = true.
Proof. destruct q; reflexivity. Qed.

Lemma prefix_app (p q : string) : String.prefix p (p ++ q) = true.
Proof.
  induction p as [|a p IH]; [apply prefix_empty|].
  cbn [String.append String.prefix].
  destruct (ascii_dec a a); [exact IH|congruence].
Qed.

Lemma append_nil_r (p : string) : (p ++ EmptyString)%string = p.
Proof. induction p as [|a p IH]; [reflexivity|]. cbn. now rewrite IH. Qed.

(** A key has the key of each initial part of its values as a prefix. *)
Lemma join_prefix (sep : string) (a : list string) :
  forall b, String.prefix (join sep a) (join sep (a ++ b)) = true.
Proof.
  induction a as [|x a IH]; intros b; [apply prefix_empty|].
  destruct a as [|y a].
  - cbn [app join]. destruct b as [|z b].
    + rewrite <- (append_nil_r x) at 2. apply prefix_app.
    + apply prefix_app.
  - change (((x :: y :: a) ++ b)%list) with (x :: y :: (a ++ b))%list.
    change (join sep (x :: y :: a)) with (x ++ sep ++ join sep (y :: a))%string.
    change (join sep (x :: y :: (a ++ b))%list) with (x ++ sep ++ join sep ((y :: a) ++ b))%string.
    rewrite !prefix_app_same. apply IH.
Qed.

Lemma Sprintf_prefix (a b : list value) :
  String.prefix (Sprintf_v_colon a) (Sprintf_v_colon (a ++ b)) = true.
Proof.
  unfold Sprintf_v_colon. rewrite map_app. apply join_prefix.
Qed.

Lemma mapIndex_single (k : string) (v : value) : mapIndex [(k, v)] k = v.
Proof.
  unfold mapIndex, mapGet. now rewrite String.eqb_refl.
Qed.

(** The values of a key of an equality index. *)
Lemma indexToKey_shape (d : model) (i : Index) (id : value) (entry : gomap)
  (appendID : bool) (k : string) :
  Type_ i = indexTypeEq ->
  indexToKey d i id entry appendID = Ok k ->
  exists part,
    orderKeyPart i (orderFieldKey i) (mapIndex entry (orderFieldKey i)) = Ok part
    /\ k = Sprintf_v_colon
             (([VString (namespace d); VString (indexPrefix i)]
               ++ (if orderDiffers i then [mapIndex entry (FieldName i)] else []))
              ++ [part] ++ (if appendID then [id] else []))%list.
Proof.
  intros T. unfold indexToKey. rewrite T.
  change (String.eqb indexTypeEq indexTypeEq) with true. cbv iota.
  destruct (orderKeyPart i _ _) as [part|e|msg]; try discriminate.
  cbn [bind]. intros H. inversion H; subst. exists part. split; [reflexivity|].
  f_equal. destruct (orderDiffers i), appendID; cbn [app]; reflexivity.
Qed.

Lemma indexToKey_of_part (d : model) (i : Index) (id : value) (entry : gomap)
  (appendID : bool) (part : value) :
  Type_ i = indexTypeEq ->
  orderKeyPart i (orderFieldKey i) (mapIndex entry (orderFieldKey i)) = Ok part ->
  indexToKey d i id entry appendID
  = Ok (Sprintf_v_colon
          (([VString (namespace d); VString (indexPrefix i)]
            ++ (if orderDiffers i then [mapIndex entry (FieldName i)] else []))
           ++ [part] ++ (if appendID then [id] else []))%list).
Proof.
  intros T P. unfold indexToKey. rewrite T.
  change (String.eqb indexTypeEq indexTypeEq) with true. cbv iota.
  rewrite P. cbn [bind]. f_equal. f_equal.
  destruct (orderDiffers i), appendID; cbn [app]; reflexivity.
Qed.

(** The key a query by value scans is a prefix of the key the value
    was saved under. *)
Lemma queryToListKey_prefix (d : model) (i : Index) (id : value) (entry : gomap) (k : string) :
  Type_ i = indexTypeEq ->
  indexToKey d i id entry true = Ok k ->
  exists p,
    queryToListKey d i (ToQuery i (mapIndex entry (FieldName i))) = Ok p
    /\ String.prefix p k = true.
Proof.
  intros T H. destruct (indexToKey_shape _ _ _ _ _ _ T H) as (part & P & ->).
  unfold queryToListKey. cbn [Value ToQuery].
  assert (forall rest,
    String.prefix (Sprintf_v_colon [VString (namespace d); VString (indexPrefix i)])
      (Sprintf_v_colon
         (([VString (namespace d); VString (indexPrefix i)]
           ++ (if orderDiffers i then [mapIndex entry (FieldName i)] else []))
          ++ rest)) = true) as Nil.
  { intros rest. rewrite <- app_assoc. apply Sprintf_prefix. }
  destruct (orderDiffers i) eqn:OD.
  - destruct (mapIndex entry (FieldName i)) eqn:V;
      (eexists; split; [reflexivity|]); try apply Nil; apply Sprintf_prefix.
  - assert (orderFieldKey i = FieldName i) as OF by (unfold orderFieldKey; now rewrite OD).
    rewrite OF in P.
    assert (indexToKey d i (VString EmptyString)
              [(FieldName i, mapIndex entry (FieldName i))] false
            = Ok (Sprintf_v_colon
                    (([VString (namespace d); VString (indexPrefix i)] ++ []) ++ [part] ++ [])))
      as Q.
    { rewrite (indexToKey_of_part d i _ _ false part T).
      - now rewrite OD.
      - rewrite OF, mapIndex_single. exact P. }
    destruct (mapIndex entry (FieldName i)) eqn:V;
      try (rewrite Q; eexists; split; [reflexivity|];
           cbn [app]; apply (Sprintf_prefix [_; _; _] [_])).
    eexists. split; [reflexivity|]. apply Nil.
Qed.

Lemma queryToListKey_prefix_witness :
  exists p,
    queryToListKey emailModel uniqueEmail
      (ToQuery uniqueEmail
         (mapIndex [("id"%string, VString "1"); ("email"%string, VString "a@x.com")]
                   (FieldName uniqueEmail))) = Ok p
    /\ String.prefix p "ns:byOrderedEmail:a@x.com         :1" = true.
Proof.
  apply (queryToListKey_prefix emailModel uniqueEmail (VString "1")
           [("id"%string, VString "1"); ("email"%string, VString "a@x.com")]
           "ns:byOrderedEmail:a@x.com         :1"); reflexivity.
Defined.

Lemma append_inj_l (a b c : string) : (a ++ b)%string = (a ++ c)%string -> b = c.
Proof.
  induction a as [|x a IH]; [auto|]. cbn [String.append]. intros H.
  inversion H. auto.
Qed.

(** A key begins with the namespace and the prefix of its index. *)
Lemma indexToKey_head (d : model) (i : Index) (id : value) (entry : gomap)
  (appendID : bool) (k : string) :
  indexToKey d i id entry appendID = Ok k ->
  exists t, k = (namespace d ++ ":" ++ indexPrefix i ++ t)%string.
Proof.
  unfold indexToKey.
  assert (forall rest, exists t,
            Sprintf_v_colon (VString (namespace d) :: VString (indexPrefix i) :: rest)
            = (namespace d ++ ":" ++ indexPrefix i ++ t)%string) as Shape.
  { intros [|v rest]; unfold Sprintf_v_colon; cbn [map fmt_v].
    - exists EmptyString. cbn [join]. now rewrite append_nil_r.
    - eexists. cbn [join]. reflexivity. }
  destruct (String.eqb (Type_ i) indexTypeEq).
  - destruct (orderKeyPart i _ _) as [part|e|msg]; cbn [bind]; try discriminate.
    intros H. inversion H. destruct (orderDiffers i), appendID; cbn [app]; apply Shape.
  - cbn [bind]. intros H. inversion H. destruct appendID; cbn [app]; apply Shape.
Qed.

(** The prefix of an ordered index is not the prefix of the default
    identity index. *)
Lemma ordered_prefix (i : Index) :
  Order_Type (Order_ i) <> OrderTypeUnordered ->
  exists c t, indexPrefix i = String "b" (String "y" (String c t)) /\ c <> "I"%char.
Proof.
  intros N. unfold indexPrefix. apply String.eqb_neq in N. rewrite N. cbn [negb].
  destruct (String.eqb (Order_Type (Order_ i)) OrderTypeDesc).
  - exists "D"%char. eexists. split; [reflexivity|discriminate].
  - exists "O"%char. eexists. split; [reflexivity|discriminate].
Qed.

(** The key of an ordered index is never the key of the default
    identity index: after the namespace and ":by" the one goes on with
    "O" or "D" and the other with "I". *)
Lemma ordered_key_not_identity_key (d : model) (i : Index) (id id' : value)
  (entry entry' : gomap) (k key : string) :
  Order_Type (Order_ i) <> OrderTypeUnordered ->
  indexToKey d i id entry true = Ok k ->
  indexToKey d defaultIndex id' entry' true = Ok key ->
  k <> key.
Proof.
  intros N K K' E. subst key.
  destruct (indexToKey_head _ _ _ _ _ _ K) as (t & ->).
  destruct (indexToKey_head _ _ _ _ _ _ K') as (t' & E).
  destruct (ordered_prefix i N) as (c & u & P & C). rewrite P in E.
  apply append_inj_l in E. cbn in E. inversion E. congruence.
Qed.

Lemma ordered_key_not_identity_key_witness :
  String.eqb "ns:byOrderedAge:0000000000000000030:1" "ns:byId:1:1" = false.
Proof.
  apply String.eqb_neq.
  apply (ordered_key_not_identity_key ageModel (ByEquality "age") (VString "1") (VString "1")
           [("id"%string, VString "1"); ("age"%string, VNumber "30")]
           [("id"%string, VString "1")]).
  - discriminate.
  - reflexivity.
  - reflexivity.
Defined.

(* ================================================================= *)
(** * [Delete] *)

(** C9.  A query built by [Equals] carries ascending order, whatever
    its field and value; the default identity index is unordered; so
    [Equals("id", v)] does not match it, and [Delete] of such a query
    returns the error "Delete query does not match default index" for
    every model, store and value, leaving the store as it was and
    issuing no call that changes it. *)
Theorem C9_delete_by_Equals_never_matches (d : model) (s : store) (f : string) (v : value) :
  Order_Type (Query_Order (Equals f v)) = OrderTypeAsc
  /\ Order_Type (Order_ defaultIndex) = OrderTypeUnordered
  /\ indexMatchesQuery defaultIndex (Equals "id" v) = false
  /\ Delete d s (Equals "id" v)
     = (Err (ErrorString "Delete query does not match default index"), s, []).
Proof.
  repeat split.
Qed.




(* ================================================================= *)
(** * [indexToKey] on values it has no encoding for *)




(* ================================================================= *)
(** * [Save]: what it writes *)

Lemma savePrepare_inv (d : model) (s : store) (inst : instance)
  (js : json) (m : gomap) (oldEntry : option gomap) :
  savePrepare d s inst = Ok (js, m, oldEntry) ->
  inst = Some js /\ m = recordOf js.
Proof.
  unfold savePrepare, recordOf. destruct inst as [js0|]; simpl; [|discriminate].
  destruct (decodeMap true js0) as [m0|e|msg] eqn:D; simpl; try discriminate.
  destruct (List d s _) as [l|e|msg]; simpl; try discriminate.
  destruct (uniqueChecks d s _ _) as [u|e|msg]; simpl; try discriminate.
  intros H. inversion H; subst. split; [reflexivity|].
  rewrite D. destruct m0; reflexivity.
Qed.

Section SaveIndexes.

Variables (d : model) (js : json) (id : value) (oldEntry : option gomap) (m : gomap).

Lemma saveIndexes_cons (index : Index) (rest : list Index) (s s' : store)
  (log : list op) :
  saveIndexes d js id oldEntry m (index :: rest) s = (Ok tt, s', log) ->
  exists stale k log2,
    staleKey d index id oldEntry m = Ok stale
    /\ indexToKey d index id m true = Ok k
    /\ saveIndexes d js id oldEntry m rest
         (storeWrite (match stale with Some k0 => storeDelete s k0 | None => s end) k js)
       = (Ok tt, s', log2)
    /\ log = ((match stale with Some k0 => [OpDelete k0] | None => [] end)
              ++ OpWrite k js :: log2)%list.
Proof.
  simpl. destruct (staleKey d index id oldEntry m) as [stale|e|msg]; try discriminate.
  destruct (indexToKey d index id m true) as [k|e|msg]; try discriminate.
  destruct (saveIndexes d js id oldEntry m rest _) as [[r s2] l2] eqn:R.
  intros H. inversion H; subst. exists stale, k, l2. auto.
Qed.


(** A key that holds the blob keeps it through the rest of the write
    loop, unless the loop deletes that key as a stale one. *)
Lemma saveIndexes_keeps (ixs : list Index) :
  forall (s s' : store) (log : list op) (k : string),
  saveIndexes d js id oldEntry m ixs s = (Ok tt, s', log) ->
  storeGet s k = Some js ->
  storeGet s' k = Some js \/ In (OpDelete k) log.
Proof.
  induction ixs as [|index rest IH]; intros s s' log k H G.
  - simpl in H. inversion H; subst. now left.
  - apply saveIndexes_cons in H. destruct H as (stale & k1 & l2 & _ & _ & R & ->).
    destruct stale as [k0|].
    + destruct (String.eqb k k0) eqn:E0.
      * apply String.eqb_eq in E0. subst k0. right. simpl. now left.
      * apply String.eqb_neq in E0.
        assert (storeGet (storeWrite (storeDelete s k0) k1 js) k = Some js) as G1.
        { destruct (String.eqb k k1) eqn:E1.
          - apply String.eqb_eq in E1. subst k1. apply storeGet_write_same.
          - apply String.eqb_neq in E1. rewrite storeGet_write_other by assumption.
            now rewrite storeGet_delete_other. }
        destruct (IH _ _ _ _ R G1) as [F|F]; [now left|right].
        simpl. right. now right.
    + assert (storeGet (storeWrite s k1 js) k = Some js) as G1.
      { destruct (String.eqb k k1) eqn:E1.
        - apply String.eqb_eq in E1. subst k1. apply storeGet_write_same.
        - apply String.eqb_neq in E1. now rewrite storeGet_write_other. }
      destruct (IH _ _ _ _ R G1) as [F|F]; [now left|right].
      simpl. now right.
Qed.

(** Every index of the loop gets its key written with the blob, and
    the key holds it at the end unless a later round deleted it. *)
Lemma saveIndexes_each (ixs : list Index) :
  forall (s s' : store) (log : list op) (index : Index),
  saveIndexes d js id oldEntry m ixs s = (Ok tt, s', log) ->
  In index ixs ->
  exists k,
    indexToKey d index id m true = Ok k
    /\ In (OpWrite k js) log
    /\ (storeGet s' k = Some js \/ In (OpDelete k) log).
Proof.
  induction ixs as [|a rest IH]; intros s s' log index H I; [contradiction|].
  apply saveIndexes_cons in H. destruct H as (stale & k1 & l2 & _ & K & R & ->).
  destruct I as [<-|I].
  - exists k1. split; [exact K|]. split.
    + apply in_or_app. right. now left.
    + destruct (saveIndexes_keeps _ _ _ _ k1 R (storeGet_write_same _ _ _)) as [F|F];
        [now left|right].
      apply in_or_app. right. now right.
  - destruct (IH _ _ _ _ R I) as (k & K' & W & F). exists k.
    split; [exact K'|]. split.
    + apply in_or_app. right. now right.
    + destruct F as [F|F]; [now left|right]. apply in_or_app. right. now right.
Qed.

(** The key of the last index of the loop holds the blob at the end. *)
Lemma saveIndexes_last (pre : list Index) (last : Index) :
  forall (s s' : store) (log : list op),
  saveIndexes d js id oldEntry m (pre ++ [last]) s = (Ok tt, s', log) ->
  exists k, indexToKey d last id m true = Ok k /\ storeGet s' k = Some js.
Proof.
  induction pre as [|a rest IH]; intros s s' log H.
  - simpl app in H. apply saveIndexes_cons in H.
    destruct H as (stale & k1 & l2 & _ & K & R & ->).
    simpl in R. inversion R; subst. exists k1. split; [exact K|].
    apply storeGet_write_same.
  - simpl app in H. apply saveIndexes_cons in H.
    destruct H as (stale & k1 & l2 & _ & _ & R & ->). eapply IH; eauto.
Qed.

(** The stale key of an index of the loop is deleted; at the end it
    is absent, unless a later round wrote it again. *)
Lemma saveIndexes_stale (ixs : list Index) :
  forall (s s' : store) (log : list op) (index : Index) (k0 : string),
  saveIndexes d js id oldEntry m ixs s = (Ok tt, s', log) ->
  In index ixs ->
  staleKey d index id oldEntry m = Ok (Some k0) ->
  In (OpDelete k0) log.
Proof.
  induction ixs as [|a rest IH]; intros s s' log index k0 H I S; [contradiction|].
  apply saveIndexes_cons in H. destruct H as (stale & k1 & l2 & St & K & R & ->).
  destruct I as [<-|I].
  - rewrite S in St. inversion St; subst stale. simpl. now left.
  - apply in_or_app. right. right. eapply IH; eauto.
Qed.

End SaveIndexes.



(* ================================================================= *)
(** * [Save] on a record without identity *)

(** C4 at a failing input.  [Save] of the package has no check of the
    identity: a record whose identity is the empty string is saved,
    under keys that end in an empty identity; a record without the
    identity field has its declared index written before the identity
    index panics.  Neither call returns an error, and both write. *)
Theorem C4_save_without_identity_writes :
  Save ageModel [] (Some (person EmptyString "30"))
  = (Ok tt,
     [("ns:byId::"%string, person EmptyString "30");
      ("ns:byOrderedAge:0000000000000000030:"%string, person EmptyString "30")],
     [OpWrite "ns:byOrderedAge:0000000000000000030:" (person EmptyString "30");
      OpWrite "ns:byId::" (person EmptyString "30")])
  /\ Save ageModel [] (Some (JObject [("age"%string, JNumber "30")]))
     = (Panic "bug in code, unhandled type: nil for field id",
        [("ns:byOrderedAge:0000000000000000030:<nil>"%string,
          JObject [("age"%string, JNumber "30")])],
        [OpWrite "ns:byOrderedAge:0000000000000000030:<nil>"
                 (JObject [("age"%string, JNumber "30")])]).
Proof.
  split; reflexivity.
Qed.

(** The earlier variant of [Save] does check: a record that has no
    non-empty string under ["ID"] or ["id"] is refused with an error
    before anything is written. *)
Theorem Db_save_refuses_missing_identity
  (d : Db.db) (s : store) (js : json) (m0 : option gomap) :
  decodeMap false js = Ok m0 ->
  Db.usableID (match m0 with Some m => m | None => [] end) "ID" = None ->
  Db.usableID (match m0 with Some m => m | None => [] end) "id" = None ->
  Db.Save d s (Some js) = (Err Db.missingID, s, []).
Proof.
  intros D U1 U2. unfold Db.Save. simpl. rewrite D, U1, U2. reflexivity.
Qed.

Lemma Db_save_refuses_missing_identity_witness :
  Db.Save (Db.NewDB [Db.ByEq "age"]) [] (Some (person EmptyString "30"))
  = (Err Db.missingID, [], []).
Proof.
  apply (Db_save_refuses_missing_identity (Db.NewDB [Db.ByEq "age"]) []
           (person EmptyString "30")
           (Some [("id"%string, VString EmptyString);
                  ("age"%string, VFloat64 (S754_finite false 8444249301319680 (-48)))]));
    reflexivity.
Defined.

(* ================================================================= *)
(** * [Save] of a record saved before *)

(** C1 at a failing input.  A person saved with age 30 is saved again
    with age 31.  The old entry comes back from [List] with its
    numbers decoded as [float64], so the stale key is built from the
    [float64] 30, whose text is ["30"] and not the padded
    ["0000000000000000030"] the key was written with: the deletion
    hits a key that is not there, the old key stays, and a lookup by
    the old age still finds the record. *)
Theorem C1_changed_number_keeps_old_key :
  Save ageModel (saveAll ageModel [person "1" "30"]) (Some (person "1" "31"))
  = (Ok tt,
     [("ns:byId:1:1"%string, person "1" "31");
      ("ns:byOrderedAge:0000000000000000030:1"%string, person "1" "30");
      ("ns:byOrderedAge:0000000000000000031:1"%string, person "1" "31")],
     [OpDelete "ns:byOrderedAge:30:1";
      OpWrite "ns:byOrderedAge:0000000000000000031:1" (person "1" "31");
      OpWrite "ns:byId:1:1" (person "1" "31")])
  /\ List ageModel (saveAll ageModel [person "1" "30"; person "1" "31"])
          (ToQuery (ByEquality "age") (VInt 30))
     = Ok [Some [("id"%string, VString "1");
                 ("age"%string, VFloat64 (S754_finite false 8444249301319680 (-48)))]].
Proof.
  split; reflexivity.
Qed.

(** The old entry is fetched by a prefix scan of the identity key, so
    with identities ["1"] and ["10"] in the store the old entry of
    ["1"] is the record of ["10"]: the stale key of ["1"] is built
    from the wrong record and the old key of ["1"] stays. *)
Lemma Save_identity_prefix_keeps_old_key :
  Save nameModel (saveAll nameModel [named "1" "a"; named "10" "zz"])
       (Some (named "1" "c"))
  = (Ok tt,
     [("ns:byId:10:10"%string, named "10" "zz");
      ("ns:byId:1:1"%string, named "1" "c");
      ("ns:byOrderedName:a               :1"%string, named "1" "a");
      ("ns:byOrderedName:c               :1"%string, named "1" "c");
      ("ns:byOrderedName:zz              :10"%string, named "10" "zz")],
     [OpDelete "ns:byOrderedName:zz              :1";
      OpWrite "ns:byOrderedName:c               :1" (named "1" "c");
      OpWrite "ns:byId:1:1" (named "1" "c")]).
Proof.
  reflexivity.
Qed.

(** For a string field and identities that are no prefix of one
    another the old key is replaced, as in the example of the
    specification. *)
Lemma Save_changed_string_replaces_key :
  Save emailModel (saveAll emailModel [account "1" "a@x.com"])
       (Some (account "1" "b@x.com"))
  = (Ok tt,
     [("ns:byId:1:1"%string, account "1" "b@x.com");
      ("ns:byOrderedEmail:b@x.com         :1"%string, account "1" "b@x.com")],
     [OpDelete "ns:byOrderedEmail:a@x.com         :1";
      OpWrite "ns:byOrderedEmail:b@x.com         :1" (account "1" "b@x.com");
      OpWrite "ns:byId:1:1" (account "1" "b@x.com")]).
Proof.
  reflexivity.
Qed.

(** What [Save] does for a changed field: for an index that is not the
    default identity index, when the old entry [List] returned holds
    for the field a value that differs from the new one, a successful
    [Save] deletes the key built from the old entry and writes the key
    built from the new record. *)
Theorem Save_deletes_key_of_old_entry
  (d : model) (s s' : store) (inst : instance) (log : list op)
  (js : json) (m old : gomap) (index : Index) :
  Save d s inst = (Ok tt, s', log) ->
  savePrepare d s inst = Ok (js, m, Some old) ->
  In index (allIndexes d) ->
  indexesMatch defaultIndex index = false ->
  ifaceNeq (mapIndex old (FieldName index)) (mapIndex m (FieldName index)) = Ok true ->
  exists k0 k,
    indexToKey d index (mapIndex m (FieldName (IdIndex (options d)))) old true = Ok k0
    /\ indexToKey d index (mapIndex m (FieldName (IdIndex (options d)))) m true = Ok k
    /\ In (OpDelete k0) log
    /\ In (OpWrite k js) log.
Proof.
  intros H P I N C. unfold Save in H. rewrite P in H.
  destruct (saveIndexes_each _ _ _ _ _ _ _ _ _ _ H I) as (k & K & W & _).
  assert (exists k0,
            indexToKey d index (mapIndex m (FieldName (IdIndex (options d)))) old true
            = Ok k0) as [k0 K0].
  { clear W K. revert H I. generalize (allIndexes d) s s' log.
    induction l as [|a rest IH]; intros s0 s1 l0 H I; [contradiction|].
    apply saveIndexes_cons in H. destruct H as (stale & k1 & l2 & St & _ & R & _).
    destruct I as [<-|I]; [|eapply IH; eauto].
    unfold staleKey in St. rewrite N, C in St. cbn [negb bind] in St.
    destruct (indexToKey d a _ old true) as [k0|e|msg]; try discriminate.
    now exists k0. }
  exists k0, k. split; [exact K0|]. split; [exact K|]. split; [|exact W].
  eapply saveIndexes_stale; eauto.
  unfold staleKey. rewrite N, C. cbn [negb bind]. now rewrite K0.
Qed.

Lemma Save_deletes_key_of_old_entry_witness :
  exists k0 k,
    indexToKey emailModel uniqueEmail
      (mapIndex [("id"%string, VString "1"); ("email"%string, VString "b@x.com")]
                (FieldName (IdIndex (options emailModel))))
      [("id"%string, VString "1"); ("email"%string, VString "a@x.com")] true = Ok k0
    /\ indexToKey emailModel uniqueEmail
         (mapIndex [("id"%string, VString "1"); ("email"%string, VString "b@x.com")]
                   (FieldName (IdIndex (options emailModel))))
         [("id"%string, VString "1"); ("email"%string, VString "b@x.com")] true = Ok k
    /\ In (OpDelete k0)
          [OpDelete "ns:byOrderedEmail:a@x.com         :1";
           OpWrite "ns:byOrderedEmail:b@x.com         :1" (account "1" "b@x.com");
           OpWrite "ns:byId:1:1" (account "1" "b@x.com")]
    /\ In (OpWrite k (account "1" "b@x.com"))
          [OpDelete "ns:byOrderedEmail:a@x.com         :1";
           OpWrite "ns:byOrderedEmail:b@x.com         :1" (account "1" "b@x.com");
           OpWrite "ns:byId:1:1" (account "1" "b@x.com")].
Proof.
  apply (Save_deletes_key_of_old_entry emailModel
           (saveAll emailModel [account "1" "a@x.com"])
           [("ns:byId:1:1"%string, account "1" "b@x.com");
            ("ns:byOrderedEmail:b@x.com         :1"%string, account "1" "b@x.com")]
           (Some (account "1" "b@x.com"))
           [OpDelete "ns:byOrderedEmail:a@x.com         :1";
            OpWrite "ns:byOrderedEmail:b@x.com         :1" (account "1" "b@x.com");
            OpWrite "ns:byId:1:1" (account "1" "b@x.com")]
           (account "1" "b@x.com")
           [("id"%string, VString "1"); ("email"%string, VString "b@x.com")]
           [("id"%string, VString "1"); ("email"%string, VString "a@x.com")]
           uniqueEmail); try reflexivity.
  simpl. left. reflexivity.
Defined.

(* ================================================================= *)
(** * Queries without an index, and the examples of the specification *)

(** A query that matches no index, declared or identity, is refused
    by [List] and by [Read] with the error that names its type and
    field. *)
Theorem query_without_index_is_refused (d : model) (s : store) (q : Query) :
  (forall i, In i (allIndexes d) -> indexMatchesQuery i q = false) ->
  List d s q = Err (noIndexError q) /\ Read d s q = Err (noIndexError q).
Proof.
  intros N. unfold List, Read.
  destruct (find (fun index => indexMatchesQuery index q) (allIndexes d)) as [i|] eqn:F.
  - apply find_some in F. destruct F as [I M]. rewrite (N i I) in M. discriminate.
  - split; reflexivity.
Qed.

Lemma query_without_index_is_refused_witness :
  List ageModel onePerson (ToQuery descAge VNil)
  = Err (ErrorString "For query type 'eq', field 'age' does not match any indexes")
  /\ Read ageModel onePerson (ToQuery descAge VNil)
     = Err (ErrorString "For query type 'eq', field 'age' does not match any indexes").
Proof.
  apply (query_without_index_is_refused ageModel onePerson (ToQuery descAge VNil)).
  intros i [<-|[<-|[]]]; reflexivity.
Defined.

(** The example of the ascending index: with the persons of identity
    1, age 30, and identity 2, age 5, saved, listing by the age index
    without a value returns the person 2 before the person 1. *)
Theorem age_example_lists_by_age :
  List ageModel (saveAll ageModel [person "1" "30"; person "2" "5"])
       (ToQuery (ByEquality "age") VNil)
  = Ok [Some [("id"%string, VString "2");
              ("age"%string, VFloat64 (S754_finite false 5629499534213120 (-50)))];
        Some [("id"%string, VString "1");
              ("age"%string, VFloat64 (S754_finite false 8444249301319680 (-48)))]].
Proof.
  reflexivity.
Qed.

(** The example of the unique index: the first account is saved; an
    account of another identity with the same address is refused and
    the store stays as it was; the first account saved again with a
    new address succeeds, and the key of the old address is gone. *)
Theorem unique_email_example :
  Save emailModel [] (Some (account "1" "a@x.com"))
  = (Ok tt,
     [("ns:byId:1:1"%string, account "1" "a@x.com");
      ("ns:byOrderedEmail:a@x.com         :1"%string, account "1" "a@x.com")],
     [OpWrite "ns:byOrderedEmail:a@x.com         :1" (account "1" "a@x.com");
      OpWrite "ns:byId:1:1" (account "1" "a@x.com")])
  /\ Save emailModel (saveAll emailModel [account "1" "a@x.com"])
          (Some (account "2" "a@x.com"))
     = (Err (ErrorString "Unique index violated"),
        saveAll emailModel [account "1" "a@x.com"], [])
  /\ Save emailModel (saveAll emailModel [account "1" "a@x.com"])
          (Some (account "1" "b@x.com"))
     = (Ok tt,
        [("ns:byId:1:1"%string, account "1" "b@x.com");
         ("ns:byOrderedEmail:b@x.com         :1"%string, account "1" "b@x.com")],
        [OpDelete "ns:byOrderedEmail:a@x.com         :1";
         OpWrite "ns:byOrderedEmail:b@x.com         :1" (account "1" "b@x.com");
         OpWrite "ns:byId:1:1" (account "1" "b@x.com")]).
Proof.
  repeat split.
Qed.

(* ================================================================= *)
(** * The uniqueness check of [Save] *)

Lemma decodeList_Forall2 (blobs : list json) :
  forall res, decodeList blobs = Ok res ->
              Forall2 (fun b r => decodeMap false b = Ok r) blobs res.
Proof.
  induction blobs as [|b t IH]; intros res; cbn [decodeList].
  - intros H. inversion H. constructor.
  - destruct (decodeMap false b) as [m|e|msg] eqn:D; cbn [bind]; try discriminate.
    destruct (decodeList t) as [ms|e|msg]; cbn [bind]; try discriminate.
    intros H. inversion H; subst. constructor; auto.
Qed.




(** With mail addresses longer than the pad length the lookup is a
    scan of a prefix: two stored addresses begin with the one being
    saved, and the error is the one for several entries. *)
Lemma Save_unique_multiple_entries :
  Save emailModel
       (saveAll emailModel [account "2" "alice@example.com";
                            account "3" "alice@example.com.au"])
       (Some (account "1" "alice@example.com"))
  = (Err (ErrorString "Multiple entries found for unique index"),
     saveAll emailModel [account "2" "alice@example.com";
                         account "3" "alice@example.com.au"], []).
Proof.
  reflexivity.
Qed.

(* ================================================================= *)
(** * Integers in keys: padded digits and their order *)

Lemma string_append_assoc (a b c : string) :
  ((a ++ b) ++ c)%string = (a ++ (b ++ c))%string.
Proof.
  induction a as [|x a IH]; [reflexivity|]. cbn [String.append]. now rewrite IH.
Qed.

Lemma string_length_app (a b : string) :
  String.length (a ++ b) = (String.length a + String.length b)%nat.
Proof.
  induction a as [|x a IH]; [reflexivity|]. cbn [String.append String.length]. now rewrite IH.
Qed.

Lemma repeat_byte_snoc (c : ascii) (n : nat) :
  repeat_byte c (S n) = (repeat_byte c n ++ String c EmptyString)%string.
Proof.
  induction n as [|n IH]; [reflexivity|].
  change (repeat_byte c (S (S n))) with (String c (repeat_byte c (S n))).
  rewrite IH at 1. reflexivity.
Qed.

Lemma zpad_zero (w : nat) : zpad w 0 = repeat_byte "0" w.
Proof.
  induction w as [|w IH]; [reflexivity|].
  rewrite repeat_byte_snoc. cbn [zpad].
  change (0 / 10) with 0. change (0 mod 10) with 0. now rewrite IH.
Qed.

Lemma zpad_length (w : nat) : forall n, String.length (zpad w n) = w.
Proof.
  induction w as [|w IH]; intros n; [reflexivity|].
  cbn [zpad]. rewrite string_length_app, IH. cbn. lia.
Qed.

(** The digits of [n], padded with zeros to the width [w], are the
    [w] low digits of [n]. *)
Lemma utoa_fuel_zpad (fuel : nat) :
  forall (w : nat) (n : Z),
  0 <= n < 10 ^ Z.of_nat w -> (1 <= w)%nat -> n < 10 ^ Z.of_nat fuel ->
  (String.length (utoa_fuel fuel n) <= w)%nat
  /\ (repeat_byte "0" (w - String.length (utoa_fuel fuel n)) ++ utoa_fuel fuel n)%string
     = zpad w n.
Proof.
  induction fuel as [|f IH]; intros w n B W F.
  - assert (n = 0) by (change (10 ^ Z.of_nat 0) with 1 in F; lia). subst n.
    cbn [utoa_fuel String.length]. split; [lia|].
    rewrite Nat.sub_0_r, zpad_zero. apply append_nil_r.
  - destruct w as [|w]; [lia|]. cbn [utoa_fuel].
    rewrite Nat2Z.inj_succ, Z.pow_succ_r in B, F by lia.
    destruct (Z.ltb_spec n 10).
    + cbn [String.length]. split; [lia|].
      replace (S w - 1)%nat with w by lia. cbn [zpad].
      replace (n / 10) with 0 by (symmetry; apply Z.div_small; lia).
      replace (n mod 10) with n by (symmetry; apply Z.mod_small; lia).
      now rewrite zpad_zero.
    + assert (0 <= n / 10 < 10 ^ Z.of_nat w) as B' by (Z.div_mod_to_equations; lia).
      assert (1 <= w)%nat as W'.
      { destruct w; [|lia]. change (10 ^ Z.of_nat 0) with 1 in B'.
        Z.div_mod_to_equations; lia. }
      assert (n / 10 < 10 ^ Z.of_nat f) as F' by (Z.div_mod_to_equations; lia).
      destruct (IH w (n / 10) B' W' F') as [L E].
      rewrite string_length_app. cbn [String.length]. split; [lia|].
      replace (S w - (String.length (utoa_fuel f (n / 10)) + 1))%nat
        with (w - String.length (utoa_fuel f (n / 10)))%nat by lia.
      cbn [zpad]. rewrite <- E. now rewrite string_append_assoc.
Qed.

Lemma pow10_log2 (n : Z) : 0 <= n -> n < 10 ^ Z.of_nat (S (Z.to_nat (Z.log2 n))).
Proof.
  intros N. rewrite Nat2Z.inj_succ, Z2Nat.id by apply Z.log2_nonneg.
  destruct (Z.eq_dec n 0) as [->|NZ]; [reflexivity|].
  apply Z.lt_le_trans with (2 ^ Z.succ (Z.log2 n)).
  - apply Z.log2_spec. lia.
  - apply Z.pow_le_mono_l. lia.
Qed.

(** [%019d] of a non-negative integer below [10^19] is its 19 low digits. *)
Lemma Sprintf_019d_zpad (v : Z) : 0 <= v < 10 ^ 19 -> Sprintf_019d v = zpad 19 v.
Proof.
  intros B. unfold Sprintf_019d.
  destruct (Z.ltb_spec v 0); [lia|]. rewrite Z.abs_eq by lia.
  cbn [String.length String.append Nat.sub]. unfold utoa.
  apply (utoa_fuel_zpad _ 19%nat v); [exact B|lia|apply pow10_log2; lia].
Qed.

Lemma compare_snoc (u : string) :
  forall (v : string) (a b : ascii),
  String.length u = String.length v ->
  String.compare (u ++ String a EmptyString) (v ++ String b EmptyString)
  = match String.compare u v with
    | Eq => Ascii.compare a b
    | c => c
    end.
Proof.
  induction u as [|x u IH]; intros [|y v] a b L; try discriminate.
  - cbn. now destruct (Ascii.compare a b).
  - cbn [String.append String.compare]. cbn [String.length] in L.
    destruct (Ascii.compare x y); [apply IH; lia|reflexivity|reflexivity].
Qed.

Lemma digit_compare (x y : Z) :
  0 <= x < 10 -> 0 <= y < 10 ->
  Ascii.compare (digit_char x) (digit_char y) = Z.compare x y.
Proof.
  intros X Y. unfold Ascii.compare, digit_char, byte_of_Z.
  rewrite !N_ascii_embedding by lia.
  destruct (Z.compare_spec x y) as [E|E|E].
  - subst. apply N.compare_refl.
  - apply N.compare_lt_iff. lia.
  - apply N.compare_gt_iff. lia.
Qed.

(** On padded digits the byte order is the numeric order. *)
Lemma zpad_compare (w : nat) :
  forall x y : Z,
  0 <= x < 10 ^ Z.of_nat w -> 0 <= y < 10 ^ Z.of_nat w ->
  String.compare (zpad w x) (zpad w y) = Z.compare x y.
Proof.
  induction w as [|w IH]; intros x y X Y.
  - change (10 ^ Z.of_nat 0) with 1 in X, Y.
    assert (x = 0) by lia. assert (y = 0) by lia. subst. reflexivity.
  - rewrite Nat2Z.inj_succ, Z.pow_succ_r in X, Y by lia.
    cbn [zpad]. rewrite compare_snoc by (now rewrite !zpad_length).
    rewrite IH by (Z.div_mod_to_equations; lia).
    rewrite digit_compare by (Z.div_mod_to_equations; lia).
    destruct (Z.compare_spec (x / 10) (y / 10)) as [E|E|E].
    + destruct (Z.compare_spec (x mod 10) (y mod 10)) as [E'|E'|E']; symmetry.
      * apply Z.compare_eq_iff. Z.div_mod_to_equations; lia.
      * apply Z.compare_lt_iff. Z.div_mod_to_equations; lia.
      * apply Z.compare_gt_iff. Z.div_mod_to_equations; lia.
    + symmetry. apply Z.compare_lt_iff. Z.div_mod_to_equations; lia.
    + symmetry. apply Z.compare_gt_iff. Z.div_mod_to_equations; lia.
Qed.

Lemma Sprintf_019d_leb (x y : Z) :
  0 <= x <= y -> y < 10 ^ 19 ->
  String.leb (Sprintf_019d x) (Sprintf_019d y) = true.
Proof.
  intros X Y. rewrite !Sprintf_019d_zpad by lia. unfold String.leb.
  rewrite (zpad_compare 19) by (change (Z.of_nat 19) with 19; lia).
  destruct (Z.compare_spec x y); try reflexivity. lia.
Qed.

Lemma wrap64_small (z : Z) : MinInt64 <= z <= MaxInt64 -> wrap64 z = z.
Proof.
  unfold wrap64, MinInt64, MaxInt64. intros B.
  rewrite Z.mod_small; lia.
Qed.

(** Ascending, the key fragments of non-negative integers sort as the
    integers do, in each of the three representations. *)
Theorem integers_ascending_keep_order (i : Index) (f la lb : string) (a b : Z) :
  String.eqb (Order_Type (Order_ i)) OrderTypeDesc = false ->
  0 <= a <= b -> b <= MaxInt64 ->
  ParseInt64 la = Some a -> ParseInt64 lb = Some b ->
  exists ea eb,
    orderKeyPart i f (VInt64 a) = Ok (VString ea)
    /\ orderKeyPart i f (VInt64 b) = Ok (VString eb)
    /\ orderKeyPart i f (VInt a) = Ok (VString ea)
    /\ orderKeyPart i f (VInt b) = Ok (VString eb)
    /\ orderKeyPart i f (VNumber la) = Ok (VString ea)
    /\ orderKeyPart i f (VNumber lb) = Ok (VString eb)
    /\ String.leb ea eb = true.
Proof.
  intros D A B Pa Pb. exists (Sprintf_019d a), (Sprintf_019d b).
  unfold orderKeyPart. rewrite D, Pa, Pb.
  repeat (split; [reflexivity|]).
  apply Sprintf_019d_leb; unfold MaxInt64 in B; lia.
Qed.

(** Descending, for [int64] values and integral [json.Number]s the
    code subtracts from [math.MaxInt64]: the key fragments of
    non-negative integers sort in the reverse of the numeric order. *)
Theorem int64_descending_reverses_order (i : Index) (f la lb : string) (a b : Z) :
  Order_Type (Order_ i) = OrderTypeDesc ->
  0 <= a <= b -> b <= MaxInt64 ->
  ParseInt64 la = Some a -> ParseInt64 lb = Some b ->
  exists ea eb,
    orderKeyPart i f (VInt64 a) = Ok (VString ea)
    /\ orderKeyPart i f (VInt64 b) = Ok (VString eb)
    /\ orderKeyPart i f (VNumber la) = Ok (VString ea)
    /\ orderKeyPart i f (VNumber lb) = Ok (VString eb)
    /\ String.leb eb ea = true.
Proof.
  intros D A B Pa Pb.
  exists (Sprintf_019d (wrap64 (MaxInt64 - a))), (Sprintf_019d (wrap64 (MaxInt64 - b))).
  unfold orderKeyPart. rewrite D, Pa, Pb.
  change (String.eqb OrderTypeDesc OrderTypeDesc) with true. cbv iota.
  repeat (split; [reflexivity|]).
  rewrite !wrap64_small by (unfold MinInt64, MaxInt64 in *; lia).
  apply Sprintf_019d_leb; unfold MaxInt64 in *; lia.
Qed.

(** For an [int] the code subtracts from [math.MaxInt32]: the order
    is reversed among the values up to that bound. *)
Theorem int_descending_reverses_up_to_MaxInt32 (i : Index) (f : string) (a b : Z) :
  Order_Type (Order_ i) = OrderTypeDesc ->
  0 <= a <= b -> b <= MaxInt32 ->
  exists ea eb,
    orderKeyPart i f (VInt a) = Ok (VString ea)
    /\ orderKeyPart i f (VInt b) = Ok (VString eb)
    /\ String.leb eb ea = true.
Proof.
  intros D A B.
  exists (Sprintf_019d (wrap64 (MaxInt32 - a))), (Sprintf_019d (wrap64 (MaxInt32 - b))).
  unfold orderKeyPart. rewrite D.
  change (String.eqb OrderTypeDesc OrderTypeDesc) with true. cbv iota.
  repeat (split; [reflexivity|]).
  rewrite !wrap64_small by (unfold MinInt64, MaxInt64, MaxInt32 in *; lia).
  apply Sprintf_019d_leb; unfold MaxInt32 in *; lia.
Qed.

Lemma integers_ascending_keep_order_witness :
  exists ea eb,
    orderKeyPart (ByEquality "age") "age" (VInt64 5) = Ok (VString ea)
    /\ orderKeyPart (ByEquality "age") "age" (VInt64 30) = Ok (VString eb)
    /\ orderKeyPart (ByEquality "age") "age" (VInt 5) = Ok (VString ea)
    /\ orderKeyPart (ByEquality "age") "age" (VInt 30) = Ok (VString eb)
    /\ orderKeyPart (ByEquality "age") "age" (VNumber "5") = Ok (VString ea)
    /\ orderKeyPart (ByEquality "age") "age" (VNumber "30") = Ok (VString eb)
    /\ String.leb ea eb = true.
Proof.
  apply (integers_ascending_keep_order (ByEquality "age") "age" "5" "30" 5 30);
    try reflexivity; unfold MaxInt64; lia.
Defined.

Lemma int64_descending_reverses_order_witness :
  exists ea eb,
    orderKeyPart descAge "age" (VInt64 5) = Ok (VString ea)
    /\ orderKeyPart descAge "age" (VInt64 30) = Ok (VString eb)
    /\ orderKeyPart descAge "age" (VNumber "5") = Ok (VString ea)
    /\ orderKeyPart descAge "age" (VNumber "30") = Ok (VString eb)
    /\ String.leb eb ea = true.
Proof.
  apply (int64_descending_reverses_order descAge "age" "5" "30" 5 30);
    try reflexivity; unfold MaxInt64; lia.
Defined.

Lemma int_descending_reverses_up_to_MaxInt32_witness :
  exists ea eb,
    orderKeyPart descAge "age" (VInt 5) = Ok (VString ea)
    /\ orderKeyPart descAge "age" (VInt 30) = Ok (VString eb)
    /\ String.leb eb ea = true.
Proof.
  apply (int_descending_reverses_up_to_MaxInt32 descAge "age" 5 30);
    try reflexivity; unfold MaxInt32; lia.
Defined.

(** C5 at a failing input.  For an [int] the descending encoding
    subtracts from [math.MaxInt32], not from the largest [int]: above
    it the difference is negative, its text carries a sign, and the
    greater of two values gets the greater text. *)
Theorem C5_int_descending_above_MaxInt32 :
  orderKeyPart descAge "age" (VInt 2147483648) = Ok (VString "-000000000000000001")
  /\ orderKeyPart descAge "age" (VInt 2147483649) = Ok (VString "-000000000000000002")
  /\ indexToKey ageModel descAge (VString "1") [("age"%string, VInt 2147483648)] true
     = Ok "ns:byDescOrderedAge:-000000000000000001:1"%string
  /\ indexToKey ageModel descAge (VString "2") [("age"%string, VInt 2147483649)] true
     = Ok "ns:byDescOrderedAge:-000000000000000002:2"%string
  /\ String.ltb "-000000000000000001" "-000000000000000002" = true
  /\ String.leb "-000000000000000002" "-000000000000000001" = false.
Proof.
  repeat split.
Qed.

(* ================================================================= *)
(** * UTF-8: round trip and order *)

(** The encoding of scalar values is read back by the [range] loop,
    and the byte order of encoded text is the order of its runes. *)

Lemma EncodeRune_bytes (r : Z) : Forall in_byte (EncodeRune r).
Proof.
  unfold EncodeRune, valid_rune, in_byte, MaxRune.
  repeat zcase; repeat (apply Forall_cons; [dlia|]); apply Forall_nil.
Qed.

Lemma decode2 (a b : Z) (rest : list Z) :
  2 <= a < 32 -> 0 <= b < 64 ->
  decode_runes (192 + a :: 128 + b :: rest) = (a * 64 + b) :: decode_runes rest.
Proof.
  intros A B. cbn [decode_runes]. unfold is_cont.
  repeat zcase'; f_equal; lia.
Qed.

Lemma decode3 (a b c : Z) (rest : list Z) :
  0 <= a < 16 -> 0 <= b < 64 -> 0 <= c < 64 ->
  (a = 0 -> 32 <= b) -> (a = 13 -> b < 32) ->
  decode_runes (224 + a :: 128 + b :: 128 + c :: rest)
  = (a * 4096 + b * 64 + c) :: decode_runes rest.
Proof.
  intros A B C Z0 Z13. cbn [decode_runes]. unfold accepts2, is_cont.
  repeat zcase'; f_equal; lia.
Qed.

Lemma decode4 (a b c e : Z) (rest : list Z) :
  0 <= a < 5 -> 0 <= b < 64 -> 0 <= c < 64 -> 0 <= e < 64 ->
  (a = 0 -> 16 <= b) -> (a = 4 -> b < 16) ->
  decode_runes (240 + a :: 128 + b :: 128 + c :: 128 + e :: rest)
  = (a * 262144 + b * 4096 + c * 64 + e) :: decode_runes rest.
Proof.
  intros A B C E Z0 Z4. cbn [decode_runes]. unfold accepts2, is_cont.
  repeat zcase'; f_equal; lia.
Qed.

Lemma decode_encode (r : Z) (rest : list Z) :
  valid_rune r = true ->
  decode_runes (EncodeRune r ++ rest) = r :: decode_runes rest.
Proof.
  intros V. unfold EncodeRune. rewrite V. cbn [negb].
  unfold valid_rune, MaxRune in V.
  apply andb_prop in V. destruct V as [V S].
  apply andb_prop in V. destruct V as [A B].
  apply Z.leb_le in A, B. apply negb_true_iff, andb_false_iff in S.
  rewrite Z.leb_gt, Z.leb_gt in S.
  destruct (Z.leb_spec r 127).
  { cbn [app decode_runes]. destruct (Z.ltb_spec r 128); [reflexivity|lia]. }
  destruct (Z.leb_spec r 2047); [|destruct (Z.leb_spec r 65535)]; cbn [app].
  - rewrite decode2 by dlia. f_equal. dlia.
  - rewrite decode3 by dlia. f_equal. dlia.
  - rewrite decode4 by dlia. f_equal. dlia.
Qed.

Lemma encode_lt (r1 r2 : Z) (x y : list Z) :
  valid_rune r1 = true -> valid_rune r2 = true -> r1 < r2 ->
  lexcmp (EncodeRune r1 ++ x) (EncodeRune r2 ++ y) = Lt.
Proof.
  intros V1 V2 L. unfold EncodeRune. rewrite V1, V2. cbn [negb].
  unfold valid_rune, MaxRune in V1, V2.
  apply andb_prop in V1, V2. destruct V1 as [V1 _], V2 as [V2 _].
  apply andb_prop in V1, V2. destruct V1 as [A1 B1], V2 as [A2 B2].
  apply Z.leb_le in A1, A2, B1, B2.
  destruct (Z.leb_spec r1 127); destruct (Z.leb_spec r2 127); try (exfalso; lia);
  destruct (Z.leb_spec r1 2047); destruct (Z.leb_spec r2 2047); try (exfalso; lia);
  destruct (Z.leb_spec r1 65535); destruct (Z.leb_spec r2 65535); try (exfalso; lia);
  cbn [app lexcmp]; repeat zcase; reflexivity.
Qed.

Lemma lexcmp_refl (a : list Z) : lexcmp a a = Eq.
Proof.
  induction a as [|x a IH]; [reflexivity|]. cbn [lexcmp].
  rewrite Z.ltb_irrefl. exact IH.
Qed.

Lemma lexcmp_app_same (p x y : list Z) : lexcmp (p ++ x) (p ++ y) = lexcmp x y.
Proof.
  induction p as [|b p IH]; [reflexivity|]. cbn [app lexcmp].
  rewrite Z.ltb_irrefl. exact IH.
Qed.

Lemma lexcmp_antisym (a b : list Z) : lexcmp a b = CompOpp (lexcmp b a).
Proof.
  revert b. induction a as [|x a IH]; intros [|y b]; try reflexivity.
  cbn [lexcmp]. destruct (Z.ltb_spec x y), (Z.ltb_spec y x); try reflexivity; try lia.
  apply IH.
Qed.

Lemma encode_nonempty (r : Z) : exists b t, EncodeRune r = b :: t.
Proof.
  unfold EncodeRune. destruct (negb (valid_rune r)); [eauto|].
  destruct (r <=? 127); [eauto|]. destruct (r <=? 2047); [eauto|].
  destruct (r <=? 65535); eauto.
Qed.

Lemma utf8_lexcmp (a : list Z) :
  forall b, scalars a ->
            scalars b ->
            lexcmp (utf8 a) (utf8 b) = lexcmp a b.
Proof.
  induction a as [|r1 a IH]; intros [|r2 b] Va Vb.
  - reflexivity.
  - cbn [utf8 flat_map]. destruct (encode_nonempty r2) as (c & t & ->). reflexivity.
  - cbn [utf8 flat_map]. destruct (encode_nonempty r1) as (c & t & ->). reflexivity.
  - inversion Va; subst. inversion Vb; subst. cbn [utf8 flat_map lexcmp].
    destruct (Z.ltb_spec r1 r2); [now apply encode_lt|].
    destruct (Z.ltb_spec r2 r1).
    + rewrite lexcmp_antisym. fold (utf8 a) (utf8 b).
      unfold utf8. rewrite encode_lt; auto.
    + assert (r1 = r2) by lia. subst r2. rewrite lexcmp_app_same. now apply IH.
Qed.

Lemma Z_of_byte_of_Z (z : Z) : 0 <= z < 256 -> Z_of_byte (byte_of_Z z) = z.
Proof.
  intros B. unfold Z_of_byte, byte_of_Z. rewrite N_ascii_embedding; lia.
Qed.

Lemma bytes_of_string_of_bytes (l : list Z) :
  Forall in_byte l -> bytes_of_string (string_of_bytes l) = l.
Proof.
  intros F. unfold bytes_of_string, string_of_bytes.
  rewrite list_ascii_of_string_of_list_ascii, map_map.
  induction F as [|b l B F IH]; [reflexivity|]. cbn [map].
  rewrite Z_of_byte_of_Z by exact B. now rewrite IH.
Qed.

Lemma string_compare_bytes (a : list Z) :
  forall b, Forall in_byte a -> Forall in_byte b ->
            String.compare (string_of_bytes a) (string_of_bytes b) = lexcmp a b.
Proof.
  unfold string_of_bytes.
  induction a as [|x a IH]; intros [|y b] Fa Fb; try reflexivity.
  inversion Fa; subst. inversion Fb; subst.
  cbn [map string_of_list_ascii String.compare lexcmp].
  unfold Ascii.compare, byte_of_Z. rewrite !N_ascii_embedding by (unfold in_byte in *; lia).
  unfold in_byte in *.
  destruct (Z.ltb_spec x y).
  - assert (Z.to_N x < Z.to_N y)%N as L by lia. apply N.compare_lt_iff in L. now rewrite L.
  - destruct (Z.ltb_spec y x).
    + assert (Z.to_N y < Z.to_N x)%N as L by lia. apply N.compare_gt_iff in L. now rewrite L.
    + assert (x = y) by lia. subst. rewrite N.compare_refl. now apply IH.
Qed.

Lemma utf8_bytes (rs : list Z) : Forall in_byte (utf8 rs).
Proof.
  induction rs as [|r rs IH]; [constructor|].
  cbn [utf8 flat_map]. apply Forall_app. split; [apply EncodeRune_bytes|exact IH].
Qed.

Lemma runes_of_string_of_runes (rs : list Z) :
  scalars rs ->
  runes_of_string (string_of_runes rs) = rs.
Proof.
  intros V. unfold runes_of_string, string_of_runes.
  rewrite bytes_of_string_of_bytes by apply utf8_bytes.
  induction V as [|r rs Vr V IH]; [reflexivity|].
  cbn [flat_map]. rewrite decode_encode by exact Vr. now rewrite IH.
Qed.

Lemma string_compare_runes (a b : list Z) :
  scalars a ->
  scalars b ->
  String.compare (string_of_runes a) (string_of_runes b) = lexcmp a b.
Proof.
  intros Va Vb. unfold string_of_runes.
  rewrite string_compare_bytes by apply utf8_bytes.
  now apply utf8_lexcmp.
Qed.



Lemma string_ltb_runes (a b : list Z) :
  scalars a -> scalars b ->
  String.ltb (string_of_runes a) (string_of_runes b) = true <-> lexcmp a b = Lt.
Proof.
  intros Va Vb. unfold String.ltb. rewrite string_compare_runes by assumption.
  destruct (lexcmp a b); split; congruence.
Qed.

(* ================================================================= *)
(** * Ordered string keys *)

Lemma scalars_repeat (r : Z) (n : nat) : valid_rune r = true -> scalars (repeat r n).
Proof.
  intros V. induction n; constructor; assumption.
Qed.

(** The runes of the key of well-formed text under an index that is
    not descending: the text, padded with spaces. *)
Lemma orderedRunes_asc (i : Index) (rs : list Z) :
  String.eqb (Order_Type (Order_ i)) OrderTypeDesc = false ->
  scalars rs ->
  orderedRunes i (string_of_runes rs)
  = (rs ++ repeat 32 (Z.to_nat (StringOrderPadLength i - Z.of_nat (List.length rs))))%list.
Proof.
  intros D V. unfold orderedRunes. rewrite D, runes_of_string_of_runes by exact V.
  destruct (Z.ltb_spec (Z.of_nat (List.length rs)) (StringOrderPadLength i)); [reflexivity|].
  replace (Z.to_nat (StringOrderPadLength i - Z.of_nat (List.length rs))) with O by lia.
  now rewrite app_nil_r.
Qed.

(** Under a descending index: the complements, padded with [MaxRune]. *)
Lemma orderedRunes_desc (i : Index) (rs : list Z) :
  String.eqb (Order_Type (Order_ i)) OrderTypeDesc = true ->
  scalars rs ->
  orderedRunes i (string_of_runes rs)
  = (map (fun char => MaxRune - char) rs
     ++ repeat MaxRune (Z.to_nat (StringOrderPadLength i - Z.of_nat (List.length rs))))%list.
Proof.
  intros D V. unfold orderedRunes. rewrite D, runes_of_string_of_runes by exact V.
  rewrite length_map.
  destruct (Z.ltb_spec (Z.of_nat (List.length rs)) (StringOrderPadLength i)); [reflexivity|].
  replace (Z.to_nat (StringOrderPadLength i - Z.of_nat (List.length rs))) with O by lia.
  now rewrite app_nil_r.
Qed.





(** Complemented runes sort in the reverse order, the padding of
    [MaxRune] standing above every complement of a rune that is not
    NUL. *)
Lemma complements_reverse (ra : list Z) :
  forall (rb : list Z) (n : nat),
  (List.length ra <= n)%nat -> (List.length rb <= n)%nat ->
  Forall (fun r => 0 < r) rb ->
  lexcmp ra rb = Lt ->
  lexcmp (map (fun char => MaxRune - char) rb ++ repeat MaxRune (n - List.length rb))
         (map (fun char => MaxRune - char) ra ++ repeat MaxRune (n - List.length ra))
  = Lt.
Proof.
  induction ra as [|r1 ra IH]; intros [|r2 rb] n La Lb P C; try discriminate.
  - cbn [List.length] in Lb. destruct n as [|n]; [lia|].
    inversion P; subst.
    cbn [map app List.length Nat.sub repeat lexcmp].
    destruct (Z.ltb_spec (MaxRune - r2) MaxRune); [reflexivity|lia].
  - cbn [List.length] in La, Lb. destruct n as [|n]; [lia|].
    inversion P; subst.
    cbn [lexcmp] in C. cbn [map app List.length Nat.sub lexcmp].
    destruct (Z.ltb_spec r1 r2).
    + destruct (Z.ltb_spec (MaxRune - r2) (MaxRune - r1)); [reflexivity|lia].
    + destruct (Z.ltb_spec r2 r1); [discriminate|].
      assert (r1 = r2) by lia. subst r2. rewrite !Z.ltb_irrefl.
      apply IH; auto; lia.
Qed.

Lemma complementable_scalars (rs : list Z) :
  Forall (fun r => complementable r = true) rs ->
  scalars rs /\ scalars (map (fun char => MaxRune - char) rs).
Proof.
  induction 1 as [|r rs C F [IH1 IH2]]; [split; constructor|].
  unfold complementable in C. apply andb_prop in C. destruct C as [C1 C2].
  split; constructor; assumption.
Qed.





(* ================================================================= *)
(** * What [Save] and [Delete] change in the store *)

Lemma storeGet_In (s : store) (k : string) (v : json) :
  storeGet s k = Some v -> In (k, v) s.
Proof.
  induction s as [|[k' v'] t IH]; cbn [storeGet]; [discriminate|].
  destruct (String.eqb k k') eqn:E.
  - apply String.eqb_eq in E. subst k'. intros H. inversion H. now left.
  - intros H. right. auto.
Qed.

(** The store [Save] leaves is the store it found with the calls of
    its log applied in order, also when it fails on the way. *)
Lemma saveIndexes_replay (d : model) (js : json) (id : value) (old : option gomap)
  (m : gomap) (ixs : list Index) :
  forall (s s' : store) (r : result unit) (log : list op),
  saveIndexes d js id old m ixs s = (r, s', log) -> s' = replay log s.
Proof.
  induction ixs as [|index rest IH]; intros s s' r log; cbn [saveIndexes].
  - intros H. inversion H. reflexivity.
  - destruct (staleKey d index id old m) as [stale|e|msg];
      try (intros H; inversion H; reflexivity).
    destruct (indexToKey d index id m true) as [k|e|msg].
    + destruct (saveIndexes d js id old m rest _) as [[r2 s2] l2] eqn:R.
      apply IH in R. intros H. inversion H; subst.
      unfold replay. rewrite fold_left_app. destruct stale; reflexivity.
    + intros H. inversion H; subst. destruct stale; reflexivity.
    + intros H. inversion H; subst. destruct stale; reflexivity.
Qed.

Lemma Save_store_is_replay (d : model) (s s' : store) (inst : instance)
  (r : result unit) (log : list op) :
  Save d s inst = (r, s', log) -> s' = replay log s.
Proof.
  unfold Save. destruct (savePrepare d s inst) as [[[js m] old]|e|msg].
  - apply saveIndexes_replay.
  - intros H. inversion H. reflexivity.
  - intros H. inversion H. reflexivity.
Qed.

Lemma replay_frame (log : list op) :
  forall (s : store) (k : string),
  forallb (fun o => negb (touches k o)) log = true ->
  storeGet (replay log s) k = storeGet s k.
Proof.
  induction log as [|o log IH]; intros s k F; [reflexivity|].
  cbn [forallb] in F. apply andb_prop in F. destruct F as [T F].
  unfold replay. cbn [fold_left]. fold (replay log (applyOp s o)).
  rewrite IH by exact F. apply negb_true_iff in T.
  destruct o as [k' v|k']; cbn [touches applyOp] in *; apply String.eqb_neq in T.
  - now apply storeGet_write_other.
  - now apply storeGet_delete_other.
Qed.

(** Every key [indexToKey] builds begins with the namespace and a
    colon. *)
Lemma indexToKey_namespace (d : model) (i : Index) (id : value) (entry : gomap)
  (appendID : bool) (k : string) :
  indexToKey d i id entry appendID = Ok k ->
  String.prefix (namespace d ++ ":") k = true.
Proof.
  intros K. destruct (indexToKey_head _ _ _ _ _ _ K) as (t & ->).
  rewrite <- string_append_assoc. apply prefix_app.
Qed.

Lemma staleKey_namespace (d : model) (index : Index) (id : value) (old : option gomap)
  (m : gomap) (k : string) :
  staleKey d index id old m = Ok (Some k) ->
  String.prefix (namespace d ++ ":") k = true.
Proof.
  unfold staleKey. destruct (negb _); [|discriminate].
  destruct old as [o|]; [|discriminate].
  destruct (ifaceNeq _ _) as [[|]|e|msg]; cbn [bind]; try discriminate.
  destruct (indexToKey d index id o true) as [k0|e|msg] eqn:K; cbn [bind]; try discriminate.
  intros H. inversion H; subst. eapply indexToKey_namespace; eauto.
Qed.

Lemma saveIndexes_namespace (d : model) (js : json) (id : value) (old : option gomap)
  (m : gomap) (ixs : list Index) :
  forall (s s' : store) (r : result unit) (log : list op),
  saveIndexes d js id old m ixs s = (r, s', log) ->
  forallb (inNamespace d) log = true.
Proof.
  induction ixs as [|index rest IH]; intros s s' r log; cbn [saveIndexes].
  - intros H. inversion H. reflexivity.
  - destruct (staleKey d index id old m) as [stale|e|msg] eqn:St;
      try (intros H; inversion H; reflexivity).
    assert (forallb (inNamespace d)
              (match stale with Some k => [OpDelete k] | None => [] end) = true) as S1.
    { destruct stale as [k0|]; [|reflexivity]. cbn [forallb]. unfold inNamespace.
      now rewrite (staleKey_namespace _ _ _ _ _ _ St). }
    destruct (indexToKey d index id m true) as [k|e|msg] eqn:K.
    + destruct (saveIndexes d js id old m rest _) as [[r2 s2] l2] eqn:R.
      apply IH in R. intros H. inversion H; subst.
      rewrite forallb_app, S1. cbn [forallb andb]. unfold inNamespace at 1.
      now rewrite (indexToKey_namespace _ _ _ _ _ _ K).
    + intros H. inversion H; subst. exact S1.
    + intros H. inversion H; subst. exact S1.
Qed.

Lemma outside_untouched (d : model) (k : string) (log : list op) :
  String.prefix (namespace d ++ ":") k = false ->
  forallb (inNamespace d) log = true ->
  forallb (fun o => negb (touches k o)) log = true.
Proof.
  intros P F. apply forallb_forall. intros o I.
  pose proof (proj1 (forallb_forall _ _) F o I) as N.
  destruct o as [k' v|k']; unfold inNamespace in N; cbn [touches];
    (destruct (String.eqb k k') eqn:E; [|reflexivity]);
    apply String.eqb_eq in E; subst k'; congruence.
Qed.

(** [Save] stays in the namespace of its model: whatever the instance
    and however the call ends, a key that does not begin with the
    namespace and a colon holds after the call what it held before. *)
Theorem Save_stays_in_namespace (d : model) (s : store) (inst : instance) (k : string) :
  String.prefix (namespace d ++ ":") k = false ->
  storeGet (storeAfter (Save d s inst)) k = storeGet s k.
Proof.
  intros P. destruct (Save d s inst) as [[r s'] log] eqn:H.
  unfold storeAfter. cbn [fst snd].
  rewrite (Save_store_is_replay _ _ _ _ _ _ H). apply replay_frame.
  apply (outside_untouched d); [exact P|].
  unfold Save in H. destruct (savePrepare d s inst) as [[[js m] old]|e|msg].
  - eapply saveIndexes_namespace; eauto.
  - inversion H. reflexivity.
  - inversion H. reflexivity.
Qed.

Lemma Save_stays_in_namespace_witness :
  storeGet (storeAfter (Save ageModel foreignStore (Some (person "1" "30")))) "other:1"
  = storeGet foreignStore "other:1".
Proof.
  apply (Save_stays_in_namespace ageModel foreignStore (Some (person "1" "30")) "other:1").
  reflexivity.
Defined.

(** So does [Delete]. *)
Theorem Delete_stays_in_namespace (d : model) (s : store) (q : Query) (k : string) :
  String.prefix (namespace d ++ ":") k = false ->
  storeGet (storeAfter (Delete d s q)) k = storeGet s k.
Proof.
  unfold Delete, storeAfter. intros P.
  destruct (negb (indexMatchesQuery defaultIndex q)); [reflexivity|].
  destruct (List d s q) as [[|x rest]|e|msg]; try reflexivity.
  destruct (indexToKey _ _ _ _ _) as [key|e|msg] eqn:K; try reflexivity.
  cbn [fst snd]. apply storeGet_delete_other.
  intros ->. apply indexToKey_namespace in K. congruence.
Qed.

Lemma Delete_stays_in_namespace_witness :
  storeGet (storeAfter (Delete ageModel
                          (saveAll ageModel [person "1" "30"] ++ foreignStore)
                          (ToQuery defaultIndex (VString "1")))) "other:1"
  = storeGet (saveAll ageModel [person "1" "30"] ++ foreignStore) "other:1".
Proof.
  apply (Delete_stays_in_namespace ageModel
           (saveAll ageModel [person "1" "30"] ++ foreignStore)
           (ToQuery defaultIndex (VString "1")) "other:1").
  reflexivity.
Defined.



(* ================================================================= *)
(** * [List] and [Read] *)

Lemma decodeList_single (b : json) (res : list (option gomap)) :
  decodeList [b] = Ok res -> exists r, res = [r] /\ decodeMap false b = Ok r.
Proof.
  cbn [decodeList]. destruct (decodeMap false b) as [r|e|msg]; cbn [bind]; try discriminate.
  intros H. inversion H. eauto.
Qed.

(** [Read] agrees with [List]: where [List] returns records, [Read]
    of the same query returns the record if there is one, "not found"
    if there is none, and "multiple records found" if there are
    several. *)
Theorem Read_agrees_with_List (d : model) (s : store) (q : Query)
  (res : list (option gomap)) :
  List d s q = Ok res -> Read d s q = readOutcome res.
Proof.
  unfold List, Read.
  destruct (find (fun index => indexMatchesQuery index q) (allIndexes d)) as [index|];
    [|discriminate].
  destruct (queryToListKey d index q) as [k|e|msg]; cbn [bind]; try discriminate.
  intros H. pose proof (decodeList_Forall2 _ _ H) as F.
  destruct (storeRead s k) as [|[k1 b1] [|[k2 b2] rest]]; cbn [map] in *.
  - inversion F. reflexivity.
  - apply decodeList_single in H. destruct H as (r & -> & D). cbn [snd]. exact D.
  - inversion F as [|? ? ? ? ? F']; subst. inversion F'; subst. reflexivity.
Qed.

Lemma Read_agrees_with_List_witness :
  Read ageModel onePerson (ToQuery defaultIndex (VString "1"))
  = readOutcome [decodedPerson30].
Proof.
  apply (Read_agrees_with_List ageModel onePerson (ToQuery defaultIndex (VString "1"))
           [decodedPerson30]).
  reflexivity.
Defined.




Lemma indexMatchesQuery_own (i : Index) (v : value) :
  indexMatchesQuery i (ToQuery i v) = true.
Proof.
  unfold indexMatchesQuery, ToQuery. cbn. now rewrite !String.eqb_refl.
Qed.



(* ================================================================= *)
(** * Lookups after [Save] *)

Lemma storeRead_In (s : store) (p k : string) (v : json) :
  In (k, v) s -> String.prefix p k = true -> In v (map snd (storeRead s p)).
Proof.
  intros I P. apply in_map_iff. exists (k, v). split; [reflexivity|].
  unfold storeRead. apply filter_In. auto.
Qed.

Lemma decodeList_In (blobs : list json) :
  forall (res : list (option gomap)) (b : json),
  decodeList blobs = Ok res -> In b blobs ->
  exists r, decodeMap false b = Ok r /\ In r res.
Proof.
  induction blobs as [|x t IH]; intros res b H I; [contradiction|].
  cbn [decodeList] in H.
  destruct (decodeMap false x) as [r|e|msg] eqn:D; cbn [bind] in H; try discriminate.
  destruct (decodeList t) as [rs|e|msg] eqn:L; cbn [bind] in H; try discriminate.
  inversion H; subst. destruct I as [<-|I].
  - exists r. split; [exact D|now left].
  - destruct (IH rs b eq_refl I) as (r' & D' & I'). exists r'. split; [exact D'|now right].
Qed.


(** A blob stored under a key that begins with the scanned key is
    among the results of [List]. *)
Lemma List_finds (d : model) (s : store) (q : Query) (index : Index)
  (p k : string) (js : json) (res : list (option gomap)) :
  find (fun i => indexMatchesQuery i q) (allIndexes d) = Some index ->
  queryToListKey d index q = Ok p ->
  String.prefix p k = true ->
  storeGet s k = Some js ->
  List d s q = Ok res ->
  exists r, decodeMap false js = Ok r /\ In r res.
Proof.
  intros F Q P G. unfold List. rewrite F, Q. cbn [bind]. intros L.
  eapply decodeList_In; [exact L|].
  eapply storeRead_In; [apply storeGet_In; exact G|exact P].
Qed.

Lemma Save_inv (d : model) (s s' : store) (js : json) (log : list op) :
  Save d s (Some js) = (Ok tt, s', log) ->
  exists oldEntry,
    savePrepare d s (Some js) = Ok (js, recordOf js, oldEntry)
    /\ saveIndexes d js (idOf d js) oldEntry (recordOf js) (allIndexes d) s
       = (Ok tt, s', log).
Proof.
  unfold Save. destruct (savePrepare d s (Some js)) as [[[js' m] oldEntry]|e|msg] eqn:P;
    try discriminate.
  destruct (savePrepare_inv _ _ _ _ _ _ P) as [E ->]. inversion E; subst js'.
  intros H. exists oldEntry. split; [reflexivity|exact H].
Qed.



(** The identity index is written last, so no later round deletes its
    key: a lookup by the identity of the record, matched to the
    identity index, lists the record when [Save] has succeeded. *)
Theorem Save_then_List_by_identity (d : model) (s s' : store) (js : json)
  (log : list op) (res : list (option gomap)) :
  Save d s (Some js) = (Ok tt, s', log) ->
  Type_ (IdIndex (options d)) = indexTypeEq ->
  find (fun i => indexMatchesQuery i (ToQuery (IdIndex (options d)) (idOf d js)))
       (allIndexes d) = Some (IdIndex (options d)) ->
  List d s' (ToQuery (IdIndex (options d)) (idOf d js)) = Ok res ->
  exists r, decodeMap false js = Ok r /\ In r res.
Proof.
  intros H T F L. destruct (Save_inv _ _ _ _ _ H) as (old & _ & W).
  destruct (saveIndexes_last _ _ _ _ _ _ _ _ _ _ W) as (k & K & G).
  destruct (queryToListKey_prefix _ _ _ _ _ T K) as (p & Q & P).
  eapply List_finds; eauto.
Qed.

Lemma Save_then_List_by_identity_witness :
  exists r, decodeMap false (person "1" "30") = Ok r /\ In r [decodedPerson30].
Proof.
  apply (Save_then_List_by_identity ageModel [] onePerson (person "1" "30")
           [OpWrite "ns:byOrderedAge:0000000000000000030:1" (person "1" "30");
            OpWrite "ns:byId:1:1" (person "1" "30")]
           [decodedPerson30]); reflexivity.
Defined.

(** A lookup by the beginning of a string.  Under an unordered
    equality index the key holds the string as it is, and [List] scans
    by prefix: after a [Save] that succeeds, a query by any beginning
    of the string the record holds for the field lists the record,
    unless the same [Save] deleted the key of the index afterwards. *)
Theorem lookup_by_beginning_finds_record (d : model) (s s' : store) (js : json)
  (log : list op) (index : Index) (q : Query) (res : list (option gomap))
  (x w : string) :
  Save d s (Some js) = (Ok tt, s', log) ->
  find (fun i => indexMatchesQuery i q) (allIndexes d) = Some index ->
  Type_ index = indexTypeEq ->
  Order_Type (Order_ index) = OrderTypeUnordered ->
  orderDiffers index = false ->
  mapIndex (recordOf js) (FieldName index) = VString (x ++ w) ->
  Value q = VString x ->
  (forall k, indexToKey d index (idOf d js) (recordOf js) true = Ok k ->
             ~ In (OpDelete k) log) ->
  List d s' q = Ok res ->
  exists r, decodeMap false js = Ok r /\ In r res.
Proof.
  intros H F T U OD M V ND L. destruct (Save_inv _ _ _ _ _ H) as (old & _ & W).
  assert (In index (allIndexes d)) as I by (apply find_some in F; tauto).
  destruct (saveIndexes_each _ _ _ _ _ _ _ _ _ _ W I) as (k & K & _ & G).
  destruct G as [G|G]; [|now apply ND in G].
  assert (orderFieldKey index = FieldName index) as OF
    by (unfold orderFieldKey; now rewrite OD).
  assert (forall v, orderKeyPart index (FieldName index) (VString v) = Ok (VString v)) as P.
  { intros v. unfold orderKeyPart. now rewrite U. }
  rewrite (indexToKey_of_part d index _ _ true (VString (x ++ w)) T) in K
    by (rewrite OF, M; apply P).
  inversion K as [Ek]. clear K.
  eapply (List_finds d s' q index _ k); [exact F| |rewrite <- Ek|exact G|exact L].
  - unfold queryToListKey. rewrite V, OD.
    apply (indexToKey_of_part d index _ _ false (VString x) T).
    rewrite OF, mapIndex_single. apply P.
  - rewrite OD. unfold Sprintf_v_colon. cbn [app map fmt_v join].
    rewrite !prefix_app_same. rewrite string_append_assoc. apply prefix_app.
Qed.

Lemma lookup_by_beginning_finds_record_witness :
  exists r, decodeMap false (named "10" "zz") = Ok r
            /\ In r [Some [("id"%string, VString "10"); ("name"%string, VString "zz")]].
Proof.
  apply (lookup_by_beginning_finds_record nameModel [] (saveAll nameModel [named "10" "zz"])
           (named "10" "zz")
           [OpWrite "ns:byOrderedName:zz              :10" (named "10" "zz");
            OpWrite "ns:byId:10:10" (named "10" "zz")]
           defaultIndex (ToQuery defaultIndex (VString "1"))
           [Some [("id"%string, VString "10"); ("name"%string, VString "zz")]]
           "1" "0"); try reflexivity.
  intros k _ [H|[H|[]]]; discriminate.
Defined.

Lemma saveIndexes_fresh (d : model) (js : json) (id : value) (m : gomap) (ixs : list Index) :
  forall (s s' : store) (log : list op),
  saveIndexes d js id None m ixs s = (Ok tt, s', log) ->
  exists keys,
    Forall2 (fun index k => indexToKey d index id m true = Ok k) ixs keys
    /\ log = map (fun k => OpWrite k js) keys.
Proof.
  induction ixs as [|index rest IH]; intros s s' log H.
  - cbn in H. inversion H. exists []. split; [constructor|reflexivity].
  - apply saveIndexes_cons in H. destruct H as (stale & k & l2 & St & K & R & ->).
    assert (stale = None) as ->.
    { unfold staleKey in St. destruct (negb _); now inversion St. }
    destruct (IH _ _ _ R) as (keys & F & ->).
    exists (k :: keys). split; [now constructor|reflexivity].
Qed.

Lemma savePrepare_old (d : model) (s : store) (inst : instance) (js : json) (m : gomap)
  (oldEntry : option gomap) (l : list (option gomap)) :
  savePrepare d s inst = Ok (js, m, oldEntry) ->
  List d s (ToQuery (IdIndex (options d)) (idOf d js)) = Ok l ->
  oldEntry = hd None l.
Proof.
  intros P. destruct (savePrepare_inv _ _ _ _ _ _ P) as [-> ->].
  unfold savePrepare in P. cbn [Marshal bind] in P. unfold idOf, recordOf.
  destruct (decodeMap true js) as [m0|e|msg]; cbn [bind] in P; try discriminate.
  intros L.
  destruct m0 as [m1|]; rewrite L in P; cbn [bind] in P;
    destruct (uniqueChecks d s _ _); cbn [bind] in P; try discriminate;
    inversion P; destruct l; reflexivity.
Qed.

(** The first [Save] of a record: when the lookup by its identity
    finds nothing, a [Save] that succeeds deletes nothing, and its
    calls are one [Write] for each index, in the order of the indexes
    with the identity index last. *)
Theorem Save_of_new_record_only_writes (d : model) (s s' : store) (js : json)
  (log : list op) :
  Save d s (Some js) = (Ok tt, s', log) ->
  List d s (ToQuery (IdIndex (options d)) (idOf d js)) = Ok [] ->
  exists keys,
    Forall2 (fun index k => indexToKey d index (idOf d js) (recordOf js) true = Ok k)
            (allIndexes d) keys
    /\ log = map (fun k => OpWrite k js) keys.
Proof.
  intros H L. destruct (Save_inv _ _ _ _ _ H) as (old & P & W).
  rewrite (savePrepare_old _ _ _ _ _ _ _ P L) in W. cbn [hd] in W.
  eapply saveIndexes_fresh. exact W.
Qed.

Lemma Save_of_new_record_only_writes_witness :
  exists keys,
    Forall2 (fun index k =>
               indexToKey ageModel index (idOf ageModel (person "1" "30"))
                          (recordOf (person "1" "30")) true = Ok k)
            (allIndexes ageModel) keys
    /\ [OpWrite "ns:byOrderedAge:0000000000000000030:1" (person "1" "30");
        OpWrite "ns:byId:1:1" (person "1" "30")]
       = map (fun k => OpWrite k (person "1" "30")) keys.
Proof.
  apply (Save_of_new_record_only_writes ageModel [] onePerson (person "1" "30")
           [OpWrite "ns:byOrderedAge:0000000000000000030:1" (person "1" "30");
            OpWrite "ns:byId:1:1" (person "1" "30")]); reflexivity.
Defined.

(* ================================================================= *)
(** * Strings in the stored text, and [Delete] after [Save] *)

Lemma decodeValue_object (u : bool) (fs : list (string * json)) :
  decodeValue u (JObject fs) = option_map VMap (decodeMembers u fs []).
Proof.
  cbn [decodeValue]. f_equal. generalize ([] : gomap).
  induction fs as [|[k x] t IH]; intros acc; [reflexivity|].
  cbn [decodeMembers]. destruct (decodeValue u x); [apply IH|reflexivity].
Qed.

Lemma mapGet_mapSet (m : gomap) (k k' : string) (v : value) :
  mapGet (mapSet m k v) k' = if String.eqb k' k then Some v else mapGet m k'.
Proof.
  induction m as [|[k0 v0] t IH]; cbn [mapSet mapGet].
  - reflexivity.
  - destruct (String.eqb k k0) eqn:E.
    + apply String.eqb_eq in E. subst k0. cbn [mapGet].
      destruct (String.eqb k' k); reflexivity.
    + cbn [mapGet]. destruct (String.eqb k' k0) eqn:E'.
      * apply String.eqb_eq in E'. subst k0.
        rewrite String.eqb_sym in E. now rewrite E.
      * exact IH.
Qed.

Lemma decodeValue_string (j : json) (x : string) (v : value) :
  decodeValue true j = Some (VString x) -> decodeValue false j = Some v -> v = VString x.
Proof.
  destruct j; cbn [decodeValue]; try discriminate.
  - intros H G. inversion H; subst. now inversion G.
  - destruct ((fix elements (l0 : list json) : option (list value) := _) l); discriminate.
  - destruct ((fix members (fs : list (string * json)) (acc : gomap) : option gomap := _)
                fields []); discriminate.
Qed.

Lemma decodeMembers_strings (fs : list (string * json)) :
  forall acc acc' m m',
  (forall k x, mapGet acc k = Some (VString x) -> mapGet acc' k = Some (VString x)) ->
  decodeMembers true fs acc = Some m ->
  decodeMembers false fs acc' = Some m' ->
  forall k x, mapGet m k = Some (VString x) -> mapGet m' k = Some (VString x).
Proof.
  induction fs as [|[k0 j] t IH]; intros acc acc' m m' R T F.
  - cbn in T, F. inversion T; inversion F; subst. exact R.
  - cbn [decodeMembers] in T, F.
    destruct (decodeValue true j) as [v|] eqn:Dt; [|discriminate].
    destruct (decodeValue false j) as [v'|] eqn:Df; [|discriminate].
    eapply IH; [|exact T|exact F].
    intros k x. rewrite !mapGet_mapSet. destruct (String.eqb k k0); [|apply R].
    intros H. inversion H; subst. f_equal. eapply decodeValue_string; eauto.
Qed.

(** A field that holds a string for [Save] holds the same string in
    the entry [List] decodes from the stored text. *)
Lemma plain_decoding_keeps_strings (js : json) (r : option gomap) (f x : string) :
  mapIndex (recordOf js) f = VString x ->
  decodeMap false js = Ok r ->
  mapIndexNil r f = VString x.
Proof.
  unfold recordOf, decodeMap. destruct js; try (cbn; discriminate).
  rewrite !decodeValue_object.
  destruct (decodeMembers true fields []) as [m|] eqn:T; [|cbn; discriminate].
  destruct (decodeMembers false fields []) as [m'|] eqn:F; [|cbn; discriminate].
  cbn [option_map]. intros H G. inversion G; subst. cbn [mapIndexNil].
  unfold mapIndex in *. destruct (mapGet m f) as [v|] eqn:M; [|discriminate]. subst v.
  erewrite (decodeMembers_strings fields [] [] m m'); eauto.
Qed.

(** The key of a string field survives the second decoding.  [Save]
    builds the keys it writes from the record decoded with
    [UseNumber], and the stale key from the old entry, which [List]
    decodes without; where the filter field and the order field of
    the index hold strings, both records give the same key, so the
    stale key is the key that was written. *)
Theorem string_field_key_survives_redecoding (d : model) (index : Index) (id : value)
  (js : json) (old : gomap) (x y : string) (appendID : bool) :
  decodeMap false js = Ok (Some old) ->
  mapIndex (recordOf js) (FieldName index) = VString x ->
  mapIndex (recordOf js) (orderFieldKey index) = VString y ->
  indexToKey d index id old appendID = indexToKey d index id (recordOf js) appendID.
Proof.
  intros D X Y.
  pose proof (plain_decoding_keeps_strings _ _ _ _ X D) as X'.
  pose proof (plain_decoding_keeps_strings _ _ _ _ Y D) as Y'.
  cbn [mapIndexNil] in X', Y'. unfold indexToKey. now rewrite X, Y, X', Y'.
Qed.

Lemma string_field_key_survives_redecoding_witness :
  indexToKey emailModel uniqueEmail (VString "1")
    [("id"%string, VString "1"); ("email"%string, VString "a@x.com")] true
  = indexToKey emailModel uniqueEmail (VString "1") (recordOf (account "1" "a@x.com")) true.
Proof.
  apply (string_field_key_survives_redecoding emailModel uniqueEmail (VString "1")
           (account "1" "a@x.com")
           [("id"%string, VString "1"); ("email"%string, VString "a@x.com")]
           "a@x.com" "a@x.com" true); reflexivity.
Defined.

Lemma identity_key (d : model) (idv : value) (entry : gomap) (id : string)
  (appendID : bool) :
  mapIndex entry "id" = VString id ->
  indexToKey d defaultIndex idv entry appendID
  = Ok (Sprintf_v_colon
          ([VString (namespace d); VString "byId"; VString id]
           ++ (if appendID then [idv] else []))).
Proof.
  intros H. unfold indexToKey. cbn. rewrite H. cbn. destruct appendID; reflexivity.
Qed.

(** Save, then delete, for a string identity under the default
    identity index.  When the lookup by the identity returns one
    record after a [Save] that succeeded, [Delete] by that identity
    succeeds and its one call deletes the key [Save] wrote for the
    identity index, which held the text of the instance. *)
Theorem Save_then_Delete_removes_identity_key (d : model) (s s1 : store) (js : json)
  (log : list op) (id : string) (r : option gomap) :
  IdIndex (options d) = defaultIndex ->
  find (fun i => indexMatchesQuery i (ToQuery defaultIndex (VString id))) (allIndexes d)
  = Some defaultIndex ->
  Save d s (Some js) = (Ok tt, s1, log) ->
  idOf d js = VString id ->
  List d s1 (ToQuery defaultIndex (VString id)) = Ok [r] ->
  exists k,
    In (OpWrite k js) log
    /\ storeGet s1 k = Some js
    /\ Delete d s1 (ToQuery defaultIndex (VString id))
       = (Ok tt, storeDelete s1 k, [OpDelete k]).
Proof.
  intros I F H V L.
  destruct (Save_inv _ _ _ _ _ H) as (old & _ & W).
  destruct (saveIndexes_last _ _ _ _ _ _ _ _ _ _ W) as (k & K & G).
  assert (In (IdIndex (options d)) (allIndexes d)) as Iin
    by (unfold allIndexes; apply in_or_app; right; now left).
  destruct (saveIndexes_each _ _ _ _ _ _ _ _ _ _ W Iin) as (k' & K' & Wr & _).
  rewrite K in K'. inversion K'; subst k'.
  exists k. split; [exact Wr|]. split; [exact G|].
  rewrite I in K.
  assert (exists r', decodeMap false js = Ok r' /\ In r' [r]) as (r' & Dr & Ir).
  { destruct (queryToListKey_prefix d defaultIndex _ _ _ eq_refl K) as (p & Q & P).
    unfold idOf in V. rewrite I in V. rewrite V in Q.
    eapply List_finds; eauto. }
  destruct Ir as [->|[]].
  unfold idOf in V. rewrite I in V.
  change (FieldName defaultIndex) with "id"%string in *.
  pose proof (plain_decoding_keeps_strings _ _ _ _ V Dr) as P.
  unfold Delete. rewrite indexMatchesQuery_own. cbn [negb]. rewrite L, I.
  change (FieldName defaultIndex) with "id"%string. rewrite P.
  rewrite (identity_key d _ _ id true) by apply mapIndex_single.
  unfold idOf in K. rewrite I in K. change (FieldName defaultIndex) with "id"%string in K.
  rewrite V in K. rewrite (identity_key d _ _ id true V) in K. inversion K. reflexivity.
Qed.

Lemma Save_then_Delete_removes_identity_key_witness :
  exists k,
    In (OpWrite k (person "1" "30"))
       [OpWrite "ns:byOrderedAge:0000000000000000030:1" (person "1" "30");
        OpWrite "ns:byId:1:1" (person "1" "30")]
    /\ storeGet onePerson k = Some (person "1" "30")
    /\ Delete ageModel onePerson (ToQuery defaultIndex (VString "1"))
       = (Ok tt, storeDelete onePerson k, [OpDelete k]).
Proof.
  apply (Save_then_Delete_removes_identity_key ageModel [] onePerson (person "1" "30")
           [OpWrite "ns:byOrderedAge:0000000000000000030:1" (person "1" "30");
            OpWrite "ns:byId:1:1" (person "1" "30")]
           "1" decodedPerson30); reflexivity.
Defined.

(* ================================================================= *)
(** * Negative integers in keys *)

Lemma Sprintf_019d_negative (v : Z) :
  v < 0 -> exists t, Sprintf_019d v = String "-"%char t.
Proof.
  intros N. unfold Sprintf_019d. destruct (Z.ltb_spec v 0); [|lia].
  eexists. cbn [String.append]. reflexivity.
Qed.

Lemma Sprintf_019d_zpad_negative (v : Z) :
  - 10 ^ 18 < v < 0 -> Sprintf_019d v = String "-"%char (zpad 18 (- v)).
Proof.
  intros B. unfold Sprintf_019d. destruct (Z.ltb_spec v 0); [|lia].
  rewrite Z.abs_neq by lia. cbn [String.length String.append]. f_equal.
  change (19 - 1)%nat with 18%nat. unfold utoa.
  apply (utoa_fuel_zpad _ 18%nat (- v)); [change (Z.of_nat 18) with 18; lia|lia|].
  apply pow10_log2; lia.
Qed.

Lemma zpad_head (w : nat) :
  forall n : Z, exists d t, zpad (S w) n = String (digit_char d) t /\ 0 <= d < 10.
Proof.
  induction w as [|w IH]; intros n.
  - exists (n mod 10), EmptyString. split; [reflexivity|]. apply Z.mod_pos_bound. lia.
  - destruct (IH (n / 10)) as (d & t & E & B).
    exists d. eexists. split; [|exact B].
    change (zpad (S (S w)) n)
      with (zpad (S w) (n / 10) ++ String (digit_char (n mod 10)) EmptyString)%string.
    rewrite E. cbn [String.append]. reflexivity.
Qed.

Lemma minus_before_digits (w : nat) (n : Z) (t : string) :
  String.compare (String "-"%char t) (zpad (S w) n) = Lt.
Proof.
  destruct (zpad_head w n) as (d & u & -> & B). cbn [String.compare].
  assert (Ascii.compare "-"%char (digit_char d) = Lt) as ->; [|reflexivity].
  unfold Ascii.compare, digit_char, byte_of_Z. rewrite N_ascii_embedding by lia.
  apply N.compare_lt_iff. change (N_of_ascii "-") with 45%N. lia.
Qed.

(** Negative integers under an index that is not descending.  The
    sign takes the first place of the 19, so among negative integers
    above [-10^18] the key fragments sort in the reverse of the
    numeric order; every one of them sorts before the fragment of
    every non-negative integer. *)
Theorem negative_integers_ascending_reversed (i : Index) (f la lb lc : string) (a b c : Z) :
  String.eqb (Order_Type (Order_ i)) OrderTypeDesc = false ->
  - 10 ^ 18 < a < b -> b < 0 -> 0 <= c <= MaxInt64 ->
  ParseInt64 la = Some a -> ParseInt64 lb = Some b -> ParseInt64 lc = Some c ->
  exists ea eb ec,
    orderKeyPart i f (VInt64 a) = Ok (VString ea)
    /\ orderKeyPart i f (VInt64 b) = Ok (VString eb)
    /\ orderKeyPart i f (VInt64 c) = Ok (VString ec)
    /\ orderKeyPart i f (VNumber la) = Ok (VString ea)
    /\ orderKeyPart i f (VNumber lb) = Ok (VString eb)
    /\ orderKeyPart i f (VNumber lc) = Ok (VString ec)
    /\ String.ltb eb ea = true
    /\ String.ltb ea ec = true.
Proof.
  intros D A B C Pa Pb Pc.
  exists (Sprintf_019d a), (Sprintf_019d b), (Sprintf_019d c).
  unfold orderKeyPart. rewrite D, Pa, Pb, Pc.
  repeat (split; [reflexivity|]).
  rewrite (Sprintf_019d_zpad c) by (unfold MaxInt64 in C; lia).
  rewrite !Sprintf_019d_zpad_negative by lia.
  unfold String.ltb. split.
  - cbn [String.compare]. change (Ascii.compare "-" "-") with Eq. cbv iota.
    rewrite (zpad_compare 18) by (change (Z.of_nat 18) with 18; lia).
    destruct (Z.compare_spec (- b) (- a)); try reflexivity; lia.
  - now rewrite minus_before_digits.
Qed.

(** Negative integers under a descending index.  [MaxInt64 - a]
    overflows for a negative [a] and wraps to a negative number, whose
    fragment begins with the sign: it sorts before the fragment of
    every non-negative integer, where a descending order has the
    lesser number last. *)
Theorem negative_integers_descending_first (i : Index) (f la lc : string) (a c : Z) :
  Order_Type (Order_ i) = OrderTypeDesc ->
  MinInt64 <= a < 0 -> 0 <= c <= MaxInt64 ->
  ParseInt64 la = Some a -> ParseInt64 lc = Some c ->
  exists ea ec,
    orderKeyPart i f (VInt64 a) = Ok (VString ea)
    /\ orderKeyPart i f (VInt64 c) = Ok (VString ec)
    /\ orderKeyPart i f (VNumber la) = Ok (VString ea)
    /\ orderKeyPart i f (VNumber lc) = Ok (VString ec)
    /\ String.ltb ea ec = true.
Proof.
  intros D A C Pa Pc.
  exists (Sprintf_019d (wrap64 (MaxInt64 - a))), (Sprintf_019d (wrap64 (MaxInt64 - c))).
  unfold orderKeyPart. rewrite D, Pa, Pc.
  change (String.eqb OrderTypeDesc OrderTypeDesc) with true. cbv iota.
  repeat (split; [reflexivity|]).
  rewrite (wrap64_small (MaxInt64 - c)) by (unfold MinInt64, MaxInt64 in *; lia).
  rewrite (Sprintf_019d_zpad (MaxInt64 - c)) by (unfold MaxInt64 in *; lia).
  assert (wrap64 (MaxInt64 - a) < 0) as N.
  { unfold wrap64, MaxInt64, MinInt64 in *. Z.div_mod_to_equations. lia. }
  destruct (Sprintf_019d_negative _ N) as (t & ->).
  unfold String.ltb. now rewrite minus_before_digits.
Qed.

Lemma negative_integers_ascending_reversed_witness :
  exists ea eb ec,
    orderKeyPart (ByEquality "age") "age" (VInt64 (-5)) = Ok (VString ea)
    /\ orderKeyPart (ByEquality "age") "age" (VInt64 (-3)) = Ok (VString eb)
    /\ orderKeyPart (ByEquality "age") "age" (VInt64 2) = Ok (VString ec)
    /\ orderKeyPart (ByEquality "age") "age" (VNumber "-5") = Ok (VString ea)
    /\ orderKeyPart (ByEquality "age") "age" (VNumber "-3") = Ok (VString eb)
    /\ orderKeyPart (ByEquality "age") "age" (VNumber "2") = Ok (VString ec)
    /\ String.ltb eb ea = true
    /\ String.ltb ea ec = true.
Proof.
  apply (negative_integers_ascending_reversed (ByEquality "age") "age" "-5" "-3" "2"
           (-5) (-3) 2); try reflexivity; unfold MaxInt64; lia.
Defined.

Lemma negative_integers_descending_first_witness :
  exists ea ec,
    orderKeyPart descAge "age" (VInt64 (-1)) = Ok (VString ea)
    /\ orderKeyPart descAge "age" (VInt64 7) = Ok (VString ec)
    /\ orderKeyPart descAge "age" (VNumber "-1") = Ok (VString ea)
    /\ orderKeyPart descAge "age" (VNumber "7") = Ok (VString ec)
    /\ String.ltb ea ec = true.
Proof.
  apply (negative_integers_descending_first descAge "age" "-1" "7" (-1) 7);
    try reflexivity; unfold MinInt64, MaxInt64; lia.
Defined.

(* ================================================================= *)
(** * Ordered string keys: order in general, and reading back *)

Lemma spaces_not_after (y : list Z) :
  forall n : nat,
  Forall (fun r => 32 <= r) y ->
  lexcmp (repeat 32 n) (y ++ repeat 32 (n - List.length y)) <> Gt.
Proof.
  induction y as [|r y IH]; intros n F.
  - cbn [app List.length]. rewrite Nat.sub_0_r, lexcmp_refl. discriminate.
  - inversion F; subst. destruct n as [|n]; [discriminate|].
    cbn [repeat app List.length Nat.sub lexcmp].
    destruct (Z.ltb_spec 32 r); [discriminate|].
    destruct (Z.ltb_spec r 32); [lia|]. now apply IH.
Qed.

Lemma padded_not_after (x : list Z) :
  forall (y : list Z) (n : nat),
  Forall (fun r => 32 <= r) y ->
  lexcmp x y <> Gt ->
  lexcmp (x ++ repeat 32 (n - List.length x)) (y ++ repeat 32 (n - List.length y)) <> Gt.
Proof.
  induction x as [|a x IH]; intros y n F C.
  - cbn [app List.length]. rewrite Nat.sub_0_r. now apply spaces_not_after.
  - destruct y as [|b y]; [now cbn in C|].
    inversion F; subst. cbn [lexcmp] in C. cbn [app lexcmp List.length].
    destruct (Z.ltb_spec a b); [discriminate|].
    destruct (Z.ltb_spec b a); [exact C|].
    destruct n as [|n]; cbn [Nat.sub].
    + specialize (IH y O H2 C). exact IH.
    + now apply IH.
Qed.

(** Ascending string keys keep the order of the texts.  For
    well-formed texts a and b, of any length, b holding no rune below
    the space: if a sorts before b or is b, the key of a sorts before
    the key of b or is that key. *)
Theorem ascending_strings_keep_order (i : Index) (ra rb : list Z) :
  Order_Type (Order_ i) = OrderTypeAsc ->
  scalars ra -> scalars rb ->
  Forall (fun r => 32 <= r) rb ->
  String.leb (string_of_runes ra) (string_of_runes rb) = true ->
  String.leb (getOrderedStringFieldKey i (string_of_runes ra))
             (getOrderedStringFieldKey i (string_of_runes rb)) = true.
Proof.
  intros A Va Vb F L.
  assert (String.eqb (Order_Type (Order_ i)) OrderTypeDesc = false) as D
    by (rewrite A; reflexivity).
  unfold String.leb in L. rewrite string_compare_runes in L by assumption.
  unfold getOrderedStringFieldKey. rewrite D, !orderedRunes_asc by assumption.
  match goal with
  | |- String.leb (string_of_bytes (flat_map EncodeRune ?x))
                  (string_of_bytes (flat_map EncodeRune ?y)) = true =>
      change (String.leb (string_of_runes x) (string_of_runes y) = true)
  end.
  unfold String.leb. rewrite string_compare_runes.
  - replace (Z.to_nat (StringOrderPadLength i - Z.of_nat (List.length ra)))
      with (Z.to_nat (StringOrderPadLength i) - List.length ra)%nat by lia.
    replace (Z.to_nat (StringOrderPadLength i - Z.of_nat (List.length rb)))
      with (Z.to_nat (StringOrderPadLength i) - List.length rb)%nat by lia.
    pose proof (padded_not_after ra rb (Z.to_nat (StringOrderPadLength i)) F) as P.
    destruct (lexcmp ra rb); try discriminate;
      (destruct (lexcmp _ _); [reflexivity|reflexivity|exfalso; apply P; [discriminate|reflexivity]]).
  - apply Forall_app. split; [exact Va|now apply scalars_repeat].
  - apply Forall_app. split; [exact Vb|now apply scalars_repeat].
Qed.

Lemma ascending_strings_keep_order_witness :
  String.leb (getOrderedStringFieldKey nameIndex (string_of_runes [97; 108]))
             (getOrderedStringFieldKey nameIndex (string_of_runes [98])) = true.
Proof.
  apply (ascending_strings_keep_order nameIndex [97; 108] [98]).
  - reflexivity.
  - repeat constructor.
  - repeat constructor.
  - repeat constructor; lia.
  - reflexivity.
Defined.

(** The ascending key of well-formed text reads back, rune by rune,
    as the text followed by the spaces that pad it to the pad length:
    it has the pad length in runes, or the length of the text if that
    is more. *)
Theorem ordered_key_decodes_to_padded_text (i : Index) (rs : list Z) :
  Order_Type (Order_ i) = OrderTypeAsc ->
  scalars rs ->
  runes_of_string (getOrderedStringFieldKey i (string_of_runes rs))
  = (rs ++ repeat 32 (Z.to_nat (StringOrderPadLength i) - List.length rs))%list.
Proof.
  intros A V.
  assert (String.eqb (Order_Type (Order_ i)) OrderTypeDesc = false) as D
    by (rewrite A; reflexivity).
  unfold getOrderedStringFieldKey. rewrite D, orderedRunes_asc by assumption.
  match goal with
  | |- runes_of_string (string_of_bytes (flat_map EncodeRune ?x)) = _ =>
      change (runes_of_string (string_of_runes x) = rs ++ repeat 32 (Z.to_nat (StringOrderPadLength i) - List.length rs))%list
  end.
  rewrite runes_of_string_of_runes.
  - f_equal. f_equal. lia.
  - apply Forall_app. split; [exact V|now apply scalars_repeat].
Qed.

(** The descending key without base32 reads back as well: the
    complements of its runes are the text followed by NULs up to the
    pad length. *)
Theorem descending_key_decodes_to_text (i : Index) (rs : list Z) :
  Order_Type (Order_ i) = OrderTypeDesc ->
  Base32Encode i = false ->
  Forall (fun r => complementable r = true) rs ->
  map (fun char => MaxRune - char)
      (runes_of_string (getOrderedStringFieldKey i (string_of_runes rs)))
  = (rs ++ repeat 0 (Z.to_nat (StringOrderPadLength i) - List.length rs))%list.
Proof.
  intros O B C.
  assert (String.eqb (Order_Type (Order_ i)) OrderTypeDesc = true) as D
    by (rewrite O; reflexivity).
  destruct (complementable_scalars _ C) as [V V'].
  unfold getOrderedStringFieldKey. rewrite D, B, orderedRunes_desc by assumption.
  match goal with
  | |- map _ (runes_of_string (string_of_bytes (flat_map EncodeRune ?x))) = _ =>
      change (string_of_bytes (flat_map EncodeRune x)) with (string_of_runes x)
  end.
  rewrite runes_of_string_of_runes.
  - rewrite map_app, map_map, map_repeat.
    change (MaxRune - MaxRune) with 0. f_equal.
    + rewrite <- (map_id rs) at 2. apply map_ext. intros r. lia.
    + f_equal. lia.
  - apply Forall_app. split; [exact V'|now apply scalars_repeat].
Qed.

Lemma ordered_key_decodes_to_padded_text_witness :
  runes_of_string (getOrderedStringFieldKey nameIndex (string_of_runes [97; 98]))
  = ([97; 98] ++ repeat 32 (Z.to_nat (StringOrderPadLength nameIndex) - List.length [97; 98]))%list.
Proof.
  apply (ordered_key_decodes_to_padded_text nameIndex [97; 98]).
  - reflexivity.
  - repeat constructor.
Defined.

Lemma descending_key_decodes_to_text_witness :
  map (fun char => MaxRune - char)
      (runes_of_string (getOrderedStringFieldKey descName (string_of_runes [97; 98])))
  = ([97; 98] ++ repeat 0 (Z.to_nat (StringOrderPadLength descName) - List.length [97; 98]))%list.
Proof.
  apply (descending_key_decodes_to_text descName [97; 98]).
  - reflexivity.
  - reflexivity.
  - repeat constructor.
Defined.

(* ================================================================= *)
(** * Base32 text keeps the order *)

Lemma b32hex_char_kept (v : Z) :
  0 <= v < 32 -> (if b32hex_char v =? 61 then 48 else b32hex_char v) = b32hex_char v.
Proof.
  intros B. unfold b32hex_char. destruct (Z.ltb_spec v 10); zcase'; reflexivity.
Qed.

Lemma group_digits (n : Z) :
  map (fun i => b32hex_char ((n / 32 ^ (7 - i)) mod 32)) [0; 1; 2; 3; 4; 5; 6; 7]
  = b32digits 8 n.
Proof.
  cbn [map b32digits app]. rewrite !Z.div_div by lia. 
  change (n / 32 ^ (7 - 7)) with (n / 1). rewrite Z.div_1_r. reflexivity.
Qed.

Lemma armor_group (b0 b1 b2 b3 b4 keep : Z) :
  (forall i, keep <= i < 8 ->
     (((((b0 * 256 + b1) * 256 + b2) * 256 + b3) * 256 + b4) / 32 ^ (7 - i)) mod 32 = 0) ->
  ReplaceAll_byte (b32hex_group b0 b1 b2 b3 b4 keep) 61 48
  = b32digits 8 ((((b0 * 256 + b1) * 256 + b2) * 256 + b3) * 256 + b4).
Proof.
  intros Z0. rewrite <- group_digits. unfold b32hex_group, ReplaceAll_byte.
  rewrite map_map. apply map_ext_in. intros i I.
  assert (0 <= i < 8) as B by (cbn in I; lia).
  destruct (Z.ltb_spec i keep).
  - apply b32hex_char_kept. apply Z.mod_pos_bound. lia.
  - rewrite Z0 by lia. reflexivity.
Qed.

Lemma armor_unfold (bs : list Z) :
  bs <> [] -> Forall in_byte bs ->
  armor bs = (b32digits 8 (bigEndian 5 (firstn 5 bs)) ++ armor (skipn 5 bs))%list.
Proof.
  intros N F. unfold armor.
  destruct bs as [|b0 [|b1 [|b2 [|b3 [|b4 rest]]]]]; [contradiction| | | | |];
    cbn [base32hex firstn skipn bigEndian];
    repeat match goal with
           | H : Forall _ (_ :: _) |- _ => inversion H; subst; clear H
           end; unfold in_byte in *.
  - rewrite armor_group.
    + cbn [base32hex ReplaceAll_byte map]. rewrite app_nil_r. f_equal. cbn. lia.
    + intros i I. assert (i = 2 \/ i = 3 \/ i = 4 \/ i = 5 \/ i = 6 \/ i = 7) as C by lia.
      destruct C as [->|[->|[->|[->|[->| ->]]]]]; cbn; dlia.
  - rewrite armor_group.
    + cbn [base32hex ReplaceAll_byte map]. rewrite app_nil_r. f_equal. cbn. lia.
    + intros i I. assert (i = 4 \/ i = 5 \/ i = 6 \/ i = 7) as C by lia.
      destruct C as [->|[->|[->| ->]]]; cbn; dlia.
  - rewrite armor_group.
    + cbn [base32hex ReplaceAll_byte map]. rewrite app_nil_r. f_equal. cbn. lia.
    + intros i I. assert (i = 5 \/ i = 6 \/ i = 7) as C by lia.
      destruct C as [->|[->| ->]]; cbn; dlia.
  - rewrite armor_group.
    + cbn [base32hex ReplaceAll_byte map]. rewrite app_nil_r. f_equal. cbn. lia.
    + intros i I. assert (i = 7) as -> by lia. cbn; dlia.
  - unfold ReplaceAll_byte. rewrite map_app. fold (ReplaceAll_byte (b32hex_group b0 b1 b2 b3 b4 8) 61 48).
    rewrite armor_group by (intros i I; lia).
    f_equal. f_equal. cbn. lia.
Qed.

Lemma b32hex_char_lt (u v : Z) :
  0 <= u < v -> v < 32 -> b32hex_char u < b32hex_char v.
Proof.
  intros U V. unfold b32hex_char. repeat zcase'; lia.
Qed.

Lemma b32hex_char_byte (v : Z) : 0 <= v < 32 -> in_byte (b32hex_char v).
Proof.
  intros B. unfold b32hex_char, in_byte. zcase'; lia.
Qed.

Lemma b32digits_bytes (w : nat) : forall n, Forall in_byte (b32digits w n).
Proof.
  induction w as [|w IH]; intros n; [constructor|].
  cbn [b32digits]. apply Forall_app. split; [apply IH|].
  constructor; [|constructor]. apply b32hex_char_byte. apply Z.mod_pos_bound. lia.
Qed.

(** Digits of a fixed width compare as the numbers do. *)
Lemma b32digits_lt (w : nat) :
  forall (n m : Z) (x y : list Z),
  0 <= n < m -> m < 32 ^ Z.of_nat w ->
  lexcmp (b32digits w n ++ x) (b32digits w m ++ y) = Lt.
Proof.
  induction w as [|w IH]; intros n m x y N M.
  - change (32 ^ Z.of_nat 0) with 1 in M. lia.
  - rewrite Nat2Z.inj_succ, Z.pow_succ_r in M by lia.
    cbn [b32digits]. rewrite <- !app_assoc. cbn [app].
    destruct (Z.eq_dec (n / 32) (m / 32)) as [E|E].
    + rewrite E, lexcmp_app_same. cbn [lexcmp].
      assert (b32hex_char (n mod 32) < b32hex_char (m mod 32)) as L
        by (apply b32hex_char_lt; dlia).
      destruct (Z.ltb_spec (b32hex_char (n mod 32)) (b32hex_char (m mod 32)));
        [reflexivity|lia].
    + apply IH; dlia.
Qed.

Lemma bigEndian_bound (k : nat) :
  forall l, Forall in_byte l -> 0 <= bigEndian k l < 256 ^ Z.of_nat k.
Proof.
  induction k as [|k IH]; intros l F; [cbn; lia|].
  rewrite Nat2Z.inj_succ, Z.pow_succ_r by lia.
  assert (0 < 256 ^ Z.of_nat k) as P by (apply Z.pow_pos_nonneg; lia).
  destruct l as [|x t]; cbn [bigEndian]; [lia|].
  inversion F; subst. specialize (IH t H2). unfold in_byte in H1. nia.
Qed.

Lemma bigEndian_lt (k : nat) :
  forall a b,
  Forall in_byte a -> Forall in_byte b ->
  (List.length a <= k)%nat -> (List.length b <= k)%nat ->
  firstDiffBelow a b = true ->
  bigEndian k a < bigEndian k b.
Proof.
  induction k as [|k IH]; intros a b Fa Fb La Lb D.
  - destruct a; [discriminate|cbn in La; lia].
  - destruct a as [|x a]; [discriminate|]. destruct b as [|y b]; [discriminate|].
    inversion Fa; subst. inversion Fb; subst.
    cbn [firstDiffBelow] in D. cbn [bigEndian]. cbn [List.length] in La, Lb.
    pose proof (bigEndian_bound k a H2) as Ba. pose proof (bigEndian_bound k b H4) as Bb.
    destruct (Z.ltb_spec x y); [nia|].
    destruct (Z.ltb_spec y x); [discriminate|].
    assert (x = y) by lia. subst y.
    assert (bigEndian k a < bigEndian k b) by (apply IH; auto; lia). lia.
Qed.

Lemma firstDiffBelow_split (n : nat) :
  forall a b,
  firstDiffBelow a b = true ->
  firstDiffBelow (firstn n a) (firstn n b) = true
  \/ (firstn n a = firstn n b /\ firstDiffBelow (skipn n a) (skipn n b) = true).
Proof.
  induction n as [|n IH]; intros a b D.
  - right. split; [reflexivity|exact D].
  - destruct a as [|x a]; [discriminate|]. destruct b as [|y b]; [discriminate|].
    cbn [firstDiffBelow] in D. cbn [firstn skipn firstDiffBelow].
    destruct (Z.ltb_spec x y); [now left|].
    destruct (Z.ltb_spec y x); [discriminate|].
    assert (x = y) by lia. subst y.
    destruct (IH a b D) as [L|[E R]]; [now left|right].
    split; [now rewrite E|exact R].
Qed.

Lemma firstDiffBelow_app (a : list Z) :
  forall b x y, firstDiffBelow a b = true -> firstDiffBelow (a ++ x) (b ++ y) = true.
Proof.
  induction a as [|u a IH]; intros [|v b] x y D; try discriminate.
  cbn [firstDiffBelow] in D. cbn [app firstDiffBelow].
  destruct (u <? v); [reflexivity|]. destruct (v <? u); [discriminate|]. now apply IH.
Qed.

Lemma firstDiffBelow_app_same (p x y : list Z) :
  firstDiffBelow (p ++ x) (p ++ y) = firstDiffBelow x y.
Proof.
  induction p as [|b p IH]; [reflexivity|]. cbn [app firstDiffBelow].
  rewrite Z.ltb_irrefl. exact IH.
Qed.

Lemma lexcmp_firstDiffBelow (a : list Z) :
  forall b, List.length a = List.length b -> lexcmp a b = Lt -> firstDiffBelow a b = true.
Proof.
  induction a as [|x a IH]; intros [|y b] L C; try discriminate.
  cbn [lexcmp] in C. cbn [firstDiffBelow]. cbn [List.length] in L.
  destruct (x <? y); [reflexivity|]. destruct (y <? x); [discriminate|].
  apply IH; [lia|exact C].
Qed.

(** Induction on a byte sequence by groups of five. *)
Lemma by_groups_of_five (P : list Z -> Prop) :
  P [] -> (forall l, l <> [] -> P (skipn 5 l) -> P l) -> forall l, P l.
Proof.
  intros P0 Step l.
  assert (forall n l, (List.length l <= n)%nat -> P l) as H.
  { induction n as [|n IH]; intros l0 L.
    - destruct l0; [exact P0|cbn in L; lia].
    - destruct l0 as [|x t]; [exact P0|]. apply Step; [discriminate|].
      apply IH. rewrite length_skipn. cbn [List.length] in *. lia. }
  apply (H (List.length l)). lia.
Qed.

Lemma armor_bytes (bs : list Z) : Forall in_byte bs -> Forall in_byte (armor bs).
Proof.
  induction bs as [|l N IH] using by_groups_of_five; intros F; [constructor|].
  rewrite armor_unfold by assumption. apply Forall_app. split.
  - apply b32digits_bytes.
  - apply IH. rewrite <- (firstn_skipn 5 l) in F. apply Forall_app in F. tauto.
Qed.

(** The armor keeps the order of byte sequences that differ at some
    position. *)
Lemma armor_lt (a : list Z) :
  forall b, Forall in_byte a -> Forall in_byte b ->
  firstDiffBelow a b = true -> lexcmp (armor a) (armor b) = Lt.
Proof.
  induction a as [|a N IH] using by_groups_of_five; intros b Fa Fb D; [discriminate|].
  assert (b <> []) as Nb by (destruct a, b; try discriminate; contradiction).
  rewrite (armor_unfold a), (armor_unfold b) by assumption.
  assert (Forall in_byte (firstn 5 a) /\ Forall in_byte (skipn 5 a)) as [Fa1 Fa2]
    by (rewrite <- (firstn_skipn 5 a) in Fa; now apply Forall_app in Fa).
  assert (Forall in_byte (firstn 5 b) /\ Forall in_byte (skipn 5 b)) as [Fb1 Fb2]
    by (rewrite <- (firstn_skipn 5 b) in Fb; now apply Forall_app in Fb).
  destruct (firstDiffBelow_split 5 a b D) as [L|[E R]].
  - apply b32digits_lt.
    + split; [apply bigEndian_bound; exact Fa1|].
      apply bigEndian_lt; auto; apply firstn_le_length.
    + pose proof (bigEndian_bound 5 _ Fb1) as B.
      change (256 ^ Z.of_nat 5) with (32 ^ Z.of_nat 8) in B. lia.
  - rewrite E, lexcmp_app_same. now apply IH.
Qed.

Lemma encode_firstDiffBelow (r1 r2 : Z) (x y : list Z) :
  valid_rune r1 = true -> valid_rune r2 = true -> r1 < r2 ->
  firstDiffBelow (EncodeRune r1 ++ x) (EncodeRune r2 ++ y) = true.
Proof.
  intros V1 V2 L. unfold EncodeRune. rewrite V1, V2. cbn [negb].
  unfold valid_rune, MaxRune in V1, V2.
  apply andb_prop in V1, V2. destruct V1 as [V1 _], V2 as [V2 _].
  apply andb_prop in V1, V2. destruct V1 as [A1 B1], V2 as [A2 B2].
  apply Z.leb_le in A1, A2, B1, B2.
  destruct (Z.leb_spec r1 127); destruct (Z.leb_spec r2 127); try (exfalso; lia);
  destruct (Z.leb_spec r1 2047); destruct (Z.leb_spec r2 2047); try (exfalso; lia);
  destruct (Z.leb_spec r1 65535); destruct (Z.leb_spec r2 65535); try (exfalso; lia);
  cbn [app firstDiffBelow]; repeat zcase; reflexivity.
Qed.

Lemma utf8_firstDiffBelow (a : list Z) :
  forall b, scalars a -> scalars b ->
  firstDiffBelow a b = true -> firstDiffBelow (utf8 a) (utf8 b) = true.
Proof.
  induction a as [|r1 a IH]; intros [|r2 b] Va Vb D; try discriminate.
  inversion Va; subst. inversion Vb; subst.
  cbn [firstDiffBelow] in D. cbn [utf8 flat_map].
  destruct (Z.ltb_spec r1 r2); [now apply encode_firstDiffBelow|].
  destruct (Z.ltb_spec r2 r1); [discriminate|].
  assert (r1 = r2) by lia. subst r2.
  rewrite firstDiffBelow_app_same. now apply IH.
Qed.

(** Descending string keys with base32 text.  With [Base32Encode]
    the key is the base32 text of the complemented and padded runes,
    its padding [=] replaced by [0]; that text keeps the order of
    byte sequences that differ at some position, so under the
    conditions of the descending order without base32 (texts of at
    most the pad length, runes whose complement is a scalar value, no
    NUL in b) the key of b sorts strictly before the key of a when a
    sorts before b. *)
Theorem descending_base32_reverses_strings (i : Index) (ra rb : list Z) :
  Order_Type (Order_ i) = OrderTypeDesc ->
  Base32Encode i = true ->
  Forall (fun r => complementable r = true) ra ->
  Forall (fun r => complementable r = true) rb ->
  Forall (fun r => 0 < r) rb ->
  Z.of_nat (List.length ra) <= StringOrderPadLength i ->
  Z.of_nat (List.length rb) <= StringOrderPadLength i ->
  String.ltb (string_of_runes ra) (string_of_runes rb) = true ->
  String.ltb (getOrderedStringFieldKey i (string_of_runes rb))
             (getOrderedStringFieldKey i (string_of_runes ra)) = true.
Proof.
  intros O B Ca Cb P La Lb Lt.
  assert (String.eqb (Order_Type (Order_ i)) OrderTypeDesc = true) as D
    by (rewrite O; reflexivity).
  destruct (complementable_scalars _ Ca) as [Va Va'].
  destruct (complementable_scalars _ Cb) as [Vb Vb'].
  apply string_ltb_runes in Lt; [|assumption|assumption].
  unfold getOrderedStringFieldKey. rewrite D, B.
  rewrite !orderedRunes_desc by assumption.
  replace (Z.to_nat (StringOrderPadLength i - Z.of_nat (List.length rb)))
    with (Z.to_nat (StringOrderPadLength i) - List.length rb)%nat by lia.
  replace (Z.to_nat (StringOrderPadLength i - Z.of_nat (List.length ra)))
    with (Z.to_nat (StringOrderPadLength i) - List.length ra)%nat by lia.
  set (n := Z.to_nat (StringOrderPadLength i)).
  set (xb := (map (fun char => MaxRune - char) rb ++ repeat MaxRune (n - List.length rb))%list).
  set (xa := (map (fun char => MaxRune - char) ra ++ repeat MaxRune (n - List.length ra))%list).
  fold (utf8 xb) (utf8 xa). fold (armor (utf8 xb)) (armor (utf8 xa)).
  unfold String.ltb.
  rewrite string_compare_bytes by (apply armor_bytes; apply utf8_bytes).
  rewrite armor_lt; [reflexivity|apply utf8_bytes|apply utf8_bytes|].
  apply utf8_firstDiffBelow.
  - apply Forall_app. split; [exact Vb'|now apply scalars_repeat].
  - apply Forall_app. split; [exact Va'|now apply scalars_repeat].
  - apply lexcmp_firstDiffBelow.
    + subst xa xb. rewrite !length_app, !length_map, !repeat_length. lia.
    + subst xa xb. apply complements_reverse; auto; lia.
Qed.

Lemma descending_base32_reverses_strings_witness :
  String.ltb (getOrderedStringFieldKey descNameArmored (string_of_runes [97; 98]))
             (getOrderedStringFieldKey descNameArmored (string_of_runes [97])) = true.
Proof.
  apply (descending_base32_reverses_strings descNameArmored [97] [97; 98]).
  - reflexivity.
  - reflexivity.
  - repeat constructor.
  - repeat constructor.
  - repeat constructor.
  - unfold descNameArmored. simpl. lia.
  - unfold descNameArmored. simpl. lia.
  - reflexivity.
Defined.

(* ================================================================= *)
(** * Listing by an ascending integer index *)

Lemma ascii_compare_refl (a : ascii) : Ascii.compare a a = Eq.
Proof. apply N.compare_refl. Qed.

Lemma string_compare_trans (a : string) :
  forall b c, String.compare a b = Lt -> String.compare b c = Lt -> String.compare a c = Lt.
Proof.
  induction a as [|x a IH]; intros [|y b] [|z c]; cbn [String.compare]; try discriminate;
    try reflexivity.
  unfold Ascii.compare.
  destruct (N.compare_spec (N_of_ascii x) (N_of_ascii y)) as [E|L|G]; try discriminate.
  - rewrite E. destruct (N.compare (N_of_ascii y) (N_of_ascii z)); try discriminate.
    + apply IH.
    + reflexivity.
  - intros _. destruct (N.compare_spec (N_of_ascii y) (N_of_ascii z)) as [E|L'|G];
      try discriminate.
    + rewrite <- E. apply N.compare_lt_iff in L. now rewrite L.
    + intros _. assert (N_of_ascii x < N_of_ascii z)%N as T by lia.
      apply N.compare_lt_iff in T. now rewrite T.
Qed.

Lemma string_compare_app_same (x u v : string) :
  String.compare (x ++ u) (x ++ v) = String.compare u v.
Proof.
  induction x as [|a x IH]; [reflexivity|].
  cbn [String.append String.compare]. now rewrite ascii_compare_refl.
Qed.

Lemma string_compare_app_decided (z1 : string) :
  forall z2 t1 t2,
  String.length z1 = String.length z2 ->
  String.compare z1 z2 <> Eq ->
  String.compare (z1 ++ t1) (z2 ++ t2) = String.compare z1 z2.
Proof.
  induction z1 as [|a z1 IH]; intros [|b z2] t1 t2 L N; try discriminate.
  - now cbn in N.
  - cbn [String.append String.compare] in *. cbn [String.length] in L.
    destruct (Ascii.compare a b); try reflexivity. apply IH; [lia|exact N].
Qed.

Lemma keyBefore_trans (x y z : string * json) :
  keyBefore x y -> keyBefore y z -> keyBefore x z.
Proof. unfold keyBefore. apply string_compare_trans. Qed.

Lemma In_storeWrite (s : store) (k k0 : string) (v v0 : json) :
  In (k0, v0) (storeWrite s k v) -> (k0 = k /\ v0 = v) \/ In (k0, v0) s.
Proof.
  induction s as [|[k' v'] t IH]; cbn [storeWrite].
  - intros [H|[]]. inversion H. now left.
  - destruct (String.compare k k').
    + intros [H|H]; [inversion H; now left|right; now right].
    + intros [H|H]; [inversion H; now left|now right].
    + intros [H|H]; [right; now left|].
      destruct (IH H) as [E|I]; [now left|right; now right].
Qed.

Lemma storeWrite_sorted (s : store) (k : string) (v : json) :
  StronglySorted keyBefore s -> StronglySorted keyBefore (storeWrite s k v).
Proof.
  induction 1 as [|[k' v'] t S IH F]; cbn [storeWrite].
  - constructor; constructor.
  - destruct (String.compare k k') eqn:C.
    + apply String.compare_eq_iff in C. subst k'. now constructor.
    + constructor; [now constructor|]. constructor; [exact C|].
      eapply Forall_impl; [|exact F]. intros y. apply keyBefore_trans. exact C.
    + constructor; [exact IH|]. apply Forall_forall. intros [k0 v0] I.
      apply In_storeWrite in I. destruct I as [[-> ->]|I].
      * unfold keyBefore. cbn [fst]. rewrite String.compare_antisym, C. reflexivity.
      * rewrite Forall_forall in F. now apply F.
Qed.

Lemma filter_sorted (A : Type) (R : A -> A -> Prop) (p : A -> bool) (l : list A) :
  StronglySorted R l -> StronglySorted R (filter p l).
Proof.
  induction 1 as [|x t S IH F]; cbn [filter]; [constructor|].
  destruct (p x); [|exact IH]. constructor; [exact IH|].
  apply Forall_forall. intros y I. apply filter_In in I. destruct I as [I _].
  rewrite Forall_forall in F. now apply F.
Qed.

Lemma sorted_map (A B : Type) (R : A -> A -> Prop) (R' : B -> B -> Prop) (g : A -> B)
  (l : list A) :
  StronglySorted R l ->
  (forall x y, In x l -> In y l -> R x y -> R' (g x) (g y)) ->
  StronglySorted R' (map g l).
Proof.
  induction 1 as [|x t S IH F]; intros H; cbn [map]; [constructor|].
  constructor.
  - apply IH. intros a b Ia Ib. apply H; now right.
  - apply Forall_forall. intros y I. apply in_map_iff in I. destruct I as (a & <- & Ia).
    rewrite Forall_forall in F. apply H; [now left|now right|now apply F].
Qed.

Lemma ParseInt64_range (lit : string) (a : Z) :
  ParseInt64 lit = Some a -> MinInt64 <= a <= MaxInt64.
Proof.
  unfold ParseInt64. destruct (strip_sign _) as [neg body].
  destruct (take_digits body 0 0) as [[v n] [|c t]]; [|discriminate].
  destruct (0 <? n); cbn [andb]; [|discriminate].
  destruct (in_int64 _) eqn:I; [|discriminate].
  intros H. inversion H; subst. unfold in_int64 in I.
  apply andb_prop in I. destruct I as [I1 I2]. apply Z.leb_le in I1, I2. lia.
Qed.

Lemma saveIndexes_ops (d : model) (js : json) (id : value) (old : option gomap)
  (m : gomap) (ixs : list Index) :
  forall (s s' : store) (r : result unit) (log : list op) (o : op),
  saveIndexes d js id old m ixs s = (r, s', log) ->
  In o log ->
  (exists k, o = OpDelete k)
  \/ (exists index k,
        In index ixs /\ indexToKey d index id m true = Ok k /\ o = OpWrite k js).
Proof.
  induction ixs as [|index rest IH]; intros s s' r log o; cbn [saveIndexes].
  - intros H. inversion H. contradiction.
  - destruct (staleKey d index id old m) as [stale|e|msg];
      try (intros H; inversion H; contradiction).
    assert (forall o, In o (match stale with Some k => [OpDelete k] | None => [] end) ->
                      exists k, o = OpDelete k) as S1.
    { intros o0 I0. destruct stale; [|contradiction]. destruct I0 as [<-|[]]. eauto. }
    destruct (indexToKey d index id m true) as [k|e|msg] eqn:K.
    + destruct (saveIndexes d js id old m rest _) as [[r2 s2] l2] eqn:R.
      intros H I. inversion H; subst. apply in_app_or in I.
      destruct I as [I|[<-|I]].
      * left. now apply S1.
      * right. exists index, k. split; [now left|]. split; [exact K|reflexivity].
      * destruct (IH _ _ _ _ _ R I) as [D|(i0 & k0 & I0 & K0 & E)]; [now left|right].
        exists i0, k0. split; [now right|]. split; assumption.
    + intros H I. inversion H; subst. left. now apply S1.
    + intros H I. inversion H; subst. left. now apply S1.
Qed.

Section OneAscendingIndex.

Variables (ns f : string) (records : list json).

Hypothesis integers :
  Forall (fun js => exists a, intField f js = Some a /\ 0 <= a) records.

Lemma ascending_key (js : json) (id : value) (a : Z) :
  intField f js = Some a -> 0 <= a ->
  indexToKey (NewModel ns [ByEquality f] None) (ByEquality f) id (recordOf js) true
  = Ok (ns ++ ":" ++ indexPrefix (ByEquality f) ++ ":" ++ zpad 19 a ++ ":" ++ fmt_v id)%string.
Proof.
  intros F A. unfold intField in F.
  destruct (mapIndex (recordOf js) f) as [| |lit| | | | | |] eqn:M; try discriminate.
  pose proof (ParseInt64_range _ _ F) as B.
  assert (orderDiffers (ByEquality f) = false) as OD.
  { unfold orderDiffers, ByEquality. cbn. now rewrite String.eqb_refl. }
  assert (orderFieldKey (ByEquality f) = f) as OF
    by (unfold orderFieldKey; now rewrite OD).
  rewrite (indexToKey_of_part _ (ByEquality f) _ _ true (VString (Sprintf_019d a)) eq_refl).
  - rewrite OD. rewrite Sprintf_019d_zpad by (unfold MaxInt64 in B; lia). reflexivity.
  - rewrite OF, M. unfold orderKeyPart. rewrite F. reflexivity.
Qed.

Lemma identity_key_elsewhere (id : value) (m : gomap) (k : string) :
  indexToKey (NewModel ns [ByEquality f] None) defaultIndex id m true = Ok k ->
  String.prefix (ns ++ ":" ++ indexPrefix (ByEquality f)) k = false.
Proof.
  intros K. destruct (indexToKey_head _ _ _ _ _ _ K) as (t & ->).
  cbn [namespace NewModel]. rewrite prefix_app_same. reflexivity.
Qed.

Lemma written_entry (js : json) (index : Index) (k : string) :
  In js records ->
  In index (allIndexes (NewModel ns [ByEquality f] None)) ->
  indexToKey (NewModel ns [ByEquality f] None) index
             (idOf (NewModel ns [ByEquality f] None) js) (recordOf js) true = Ok k ->
  orderedEntry ns f records (k, js).
Proof.
  intros I Ix K. split; [exact I|]. cbn [fst snd]. intros P.
  destruct Ix as [<-|[<-|[]]].
  - rewrite Forall_forall in integers. destruct (integers js I) as (a & F & A).
    rewrite (ascending_key js _ a F A) in K. inversion K; subst.
    exists a. eexists. split; [exact F|]. split; [|reflexivity].
    unfold intField in F. destruct (mapIndex (recordOf js) f); try discriminate.
    apply ParseInt64_range in F. lia.
  - apply identity_key_elsewhere in K. congruence.
Qed.

Lemma orderedStore_write (s : store) (k : string) (js : json) :
  orderedStore ns f records s -> orderedEntry ns f records (k, js) ->
  orderedStore ns f records (storeWrite s k js).
Proof.
  intros [S F] E. split; [now apply storeWrite_sorted|].
  apply Forall_forall. intros [k0 v0] I. apply In_storeWrite in I.
  destruct I as [[-> ->]|I]; [exact E|]. rewrite Forall_forall in F. now apply F.
Qed.

Lemma orderedStore_delete (s : store) (k : string) :
  orderedStore ns f records s -> orderedStore ns f records (storeDelete s k).
Proof.
  intros [S F]. split; [now apply filter_sorted|].
  apply Forall_forall. intros r I. apply filter_In in I. destruct I as [I _].
  rewrite Forall_forall in F. now apply F.
Qed.

Lemma orderedStore_replay (js : json) (log : list op) :
  forall s : store,
  orderedStore ns f records s ->
  (forall o, In o log ->
     (exists k, o = OpDelete k)
     \/ (exists k, orderedEntry ns f records (k, js) /\ o = OpWrite k js)) ->
  orderedStore ns f records (replay log s).
Proof.
  induction log as [|o log IH]; intros s S H; [exact S|].
  unfold replay. cbn [fold_left]. apply IH.
  - destruct (H o (or_introl eq_refl)) as [(k & ->)|(k & E & ->)]; cbn [applyOp].
    + now apply orderedStore_delete.
    + now apply orderedStore_write.
  - intros o' I. apply H. now right.
Qed.

Lemma orderedStore_Save (s : store) (js : json) :
  In js records ->
  orderedStore ns f records s ->
  orderedStore ns f records
    (storeAfter (Save (NewModel ns [ByEquality f] None) s (Some js))).
Proof.
  intros I S.
  destruct (Save (NewModel ns [ByEquality f] None) s (Some js)) as [[r s'] log] eqn:H.
  unfold storeAfter. cbn [fst snd].
  rewrite (Save_store_is_replay _ _ _ _ _ _ H).
  apply (orderedStore_replay js); [exact S|].
  intros o Io. unfold Save in H.
  destruct (savePrepare _ s (Some js)) as [[[js' m] old]|e|msg] eqn:P;
    try (inversion H; subst; contradiction).
  destruct (savePrepare_inv _ _ _ _ _ _ P) as [E ->]. inversion E; subst js'.
  destruct (saveIndexes_ops _ _ _ _ _ _ _ _ _ _ _ H Io) as [D|(index & k & Ix & K & ->)];
    [now left|right].
  exists k. split; [|reflexivity]. eapply written_entry; eauto.
Qed.

Lemma orderedStore_saveAll :
  orderedStore ns f records (saveAll (NewModel ns [ByEquality f] None) records).
Proof.
  unfold saveAll.
  assert (forall rest s, incl rest records -> orderedStore ns f records s ->
            orderedStore ns f records
              (fold_left (fun s js => storeAfter
                 (Save (NewModel ns [ByEquality f] None) s (Some js))) rest s)) as H.
  { induction rest as [|js rest IH]; intros s Inc S; [exact S|].
    cbn [fold_left]. apply IH.
    - intros x Ix. apply Inc. now right.
    - apply orderedStore_Save; [apply Inc; now left|exact S]. }
  apply H; [apply incl_refl|]. split; constructor.
Qed.

Lemma ordered_entries_ascend (x y : string * json) :
  orderedEntry ns f records x -> orderedEntry ns f records y ->
  String.prefix (ns ++ ":" ++ indexPrefix (ByEquality f)) (fst x) = true ->
  String.prefix (ns ++ ":" ++ indexPrefix (ByEquality f)) (fst y) = true ->
  keyBefore x y -> fieldAscends f (snd x) (snd y).
Proof.
  intros [_ X] [_ Y] Px Py B.
  destruct (X Px) as (a & t & Fa & A & Ka). destruct (Y Py) as (b & u & Fb & Bb & Kb).
  unfold fieldAscends. rewrite Fa, Fb. cbv beta iota. unfold keyBefore in B. rewrite Ka, Kb in B.
  rewrite !string_compare_app_same in B.
  destruct (Z.compare_spec a b) as [E|L|G]; [lia|lia|].
  assert (MaxInt64 < 10 ^ Z.of_nat 19) as M by reflexivity.
  rewrite string_compare_app_decided in B.
  - rewrite (zpad_compare 19) in B by lia.
    change (a < b) in B. lia.
  - now rewrite !zpad_length.
  - rewrite (zpad_compare 19) by lia.
    intros C. apply Z.compare_eq in C. lia.
Qed.

End OneAscendingIndex.

(** Listing in order.  In a model with one index, [ByEquality f],
    whatever records holding non-negative integers under [f] are
    saved one after the other into an empty store, and however each
    [Save] ends, listing by the index without a value returns the
    decoded texts of saved records in ascending order of the integers
    they hold under [f]. *)
Theorem ascending_integer_index_lists_in_order (ns f : string) (records : list json)
  (res : list (option gomap)) :
  Forall (fun js => exists a, intField f js = Some a /\ 0 <= a) records ->
  List (NewModel ns [ByEquality f] None)
       (saveAll (NewModel ns [ByEquality f] None) records)
       (ToQuery (ByEquality f) VNil) = Ok res ->
  exists blobs,
    decodeList blobs = Ok res
    /\ Forall (fun b => In b records) blobs
    /\ StronglySorted (fieldAscends f) blobs.
Proof.
  intros Ints L. pose proof (orderedStore_saveAll ns f records Ints) as [S F].
  unfold List in L. cbn [allIndexes NewModel indexes options IdIndex app find] in L.
  rewrite indexMatchesQuery_own in L. cbn [bind queryToListKey ToQuery Value] in L.
  unfold queryToListKey in L. cbn [Value ToQuery bind] in L.
  match type of L with
  | decodeList (map snd (storeRead ?s ?p)) = _ =>
      exists (map snd (storeRead s p));
      change p with (ns ++ ":" ++ indexPrefix (ByEquality f))%string in *
  end.
  split; [exact L|]. unfold storeRead. split.
  - apply Forall_forall. intros b I. apply in_map_iff in I. destruct I as (r & <- & I).
    apply filter_In in I. destruct I as [I _]. rewrite Forall_forall in F.
    now destruct (F r I).
  - apply (sorted_map _ _ keyBefore); [now apply filter_sorted|].
    intros x y Ix Iy B. apply filter_In in Ix, Iy.
    destruct Ix as [Ix Px], Iy as [Iy Py]. rewrite Forall_forall in F.
    eapply ordered_entries_ascend; eauto.
Qed.

Lemma ascending_integer_index_lists_in_order_witness :
  exists blobs,
    decodeList blobs = Ok [decodedPerson25; decodedPerson30]
    /\ Forall (fun b => In b [person "1" "30"; person "2" "25"]) blobs
    /\ StronglySorted (fieldAscends "age") blobs.
Proof.
  apply (ascending_integer_index_lists_in_order "ns" "age"
           [person "1" "30"; person "2" "25"] [decodedPerson25; decodedPerson30]).
  - constructor; [exists 30; split; [reflexivity|lia]|].
    constructor; [exists 25; split; [reflexivity|lia]|constructor].
  - reflexivity.
Defined.

(* ================================================================= *)
(** * The earlier variant: what it writes and what it lists *)

Lemma Db_saveIndexes_log (js : json) (id : string) (m : gomap) (ixs : list Db.Index) :
  forall (s s' : store) (l : list op),
  Db.saveIndexes js id m ixs s = (s', l) ->
  l = map (fun index => OpWrite (Db.indexToSaveKey index id m) js) ixs.
Proof.
  induction ixs as [|index rest IH]; intros s s' l; cbn [Db.saveIndexes].
  - intros H. inversion H. reflexivity.
  - destruct (Db.saveIndexes js id m rest _) as [s2 l2] eqn:R.
    intros H. inversion H; subst. cbn [map]. f_equal. eapply IH; eauto.
Qed.

Lemma Db_saveIndexes_keeps (js : json) (id : string) (m : gomap) (ixs : list Db.Index) :
  forall (s s' : store) (l : list op) (k : string),
  Db.saveIndexes js id m ixs s = (s', l) ->
  storeGet s k = Some js -> storeGet s' k = Some js.
Proof.
  induction ixs as [|index rest IH]; intros s s' l k; cbn [Db.saveIndexes].
  - intros H. now inversion H.
  - destruct (Db.saveIndexes js id m rest _) as [s2 l2] eqn:R.
    intros H G. inversion H; subst. eapply IH; [exact R|].
    destruct (String.eqb k (Db.indexToSaveKey index id m)) eqn:E.
    + apply String.eqb_eq in E. rewrite E. apply storeGet_write_same.
    + apply String.eqb_neq in E. now rewrite storeGet_write_other.
Qed.

Lemma Db_saveIndexes_each (js : json) (id : string) (m : gomap) (ixs : list Db.Index) :
  forall (s s' : store) (l : list op) (index : Db.Index),
  Db.saveIndexes js id m ixs s = (s', l) ->
  In index ixs -> storeGet s' (Db.indexToSaveKey index id m) = Some js.
Proof.
  induction ixs as [|a rest IH]; intros s s' l index; cbn [Db.saveIndexes]; [contradiction|].
  destruct (Db.saveIndexes js id m rest _) as [s2 l2] eqn:R.
  intros H [<-|I]; inversion H; subst.
  - eapply Db_saveIndexes_keeps; [exact R|apply storeGet_write_same].
  - eapply IH; eauto.
Qed.

Lemma Db_Save_inv (d : Db.db) (s s' : store) (inst : instance) (log : list op) :
  Db.Save d s inst = (Ok tt, s', log) ->
  exists js m id l,
    inst = Some js
    /\ decodeMap false js = Ok (Some m)
    /\ (Db.usableID m "ID" = Some id
        \/ Db.usableID m "ID" = None /\ Db.usableID m "id" = Some id)
    /\ Db.saveIndexes js id m (Db.indexes d) (storeWrite s id js) = (s', l)
    /\ log = OpWrite id js :: l.
Proof.
  unfold Db.Save. destruct inst as [js|]; cbn [Marshal]; [|discriminate].
  destruct (decodeMap false js) as [[m|]|e|msg] eqn:D; try discriminate.
  - destruct (Db.usableID m "ID") as [id|] eqn:U1.
    + destruct (Db.saveIndexes js id m _ _) as [s2 l] eqn:R.
      intros H. inversion H; subst. exists js, m, id, l.
      split; [reflexivity|]. split; [exact D|]. split; [now left|]. split; [exact R|reflexivity].
    + destruct (Db.usableID m "id") as [id|] eqn:U2; [|discriminate].
      destruct (Db.saveIndexes js id m _ _) as [s2 l] eqn:R.
      intros H. inversion H; subst. exists js, m, id, l.
      split; [reflexivity|]. split; [exact D|]. split; [now right|]. split; [exact R|reflexivity].
Qed.

(** What the earlier [Save] writes when it succeeds: the text of the
    instance under the identity itself, taken from ["ID"] or else from
    ["id"], then under one key for each index, in their order; no key
    is deleted, and every key written holds the text at the end. *)
Theorem Db_save_writes_record (d : Db.db) (s s' : store) (inst : instance)
  (log : list op) :
  Db.Save d s inst = (Ok tt, s', log) ->
  exists js m id,
    inst = Some js
    /\ decodeMap false js = Ok (Some m)
    /\ (Db.usableID m "ID" = Some id
        \/ Db.usableID m "ID" = None /\ Db.usableID m "id" = Some id)
    /\ log = OpWrite id js
             :: map (fun index => OpWrite (Db.indexToSaveKey index id m) js) (Db.indexes d)
    /\ storeGet s' id = Some js
    /\ (forall index, In index (Db.indexes d) ->
          storeGet s' (Db.indexToSaveKey index id m) = Some js).
Proof.
  intros H. destruct (Db_Save_inv _ _ _ _ _ H) as (js & m & id & l & -> & D & U & R & ->).
  exists js, m, id. repeat (split; [assumption || reflexivity|]).
  split; [|split].
  - f_equal. eapply Db_saveIndexes_log; eauto.
  - eapply Db_saveIndexes_keeps; [exact R|apply storeGet_write_same].
  - intros index I. eapply Db_saveIndexes_each; eauto.
Qed.

Lemma Db_key_prefix (index : Db.Index) (id : string) (m : gomap) :
  String.prefix
    (Db.queryToListKey (Db.Eq (Db.FieldName index) (mapIndex m (Db.FieldName index))))
    (Db.indexToSaveKey index id m) = true.
Proof.
  unfold Db.queryToListKey, Db.indexToSaveKey, Db.Eq. cbn [Db.QFieldName Db.QValue].
  rewrite !prefix_app_same.
  rewrite <- (append_nil_r (fmt_v (mapIndex m (Db.FieldName index)))) at 1.
  rewrite prefix_app_same. apply prefix_empty.
Qed.

(** Save, then look up, in the earlier variant: after a [Save] that
    succeeds, a query [Eq] by the value the record holds for the field
    of an ascending equality index lists the record. *)
Theorem Db_save_then_list_finds_record (d : Db.db) (s s' : store) (inst : instance)
  (log : list op) :
  Db.Save d s inst = (Ok tt, s', log) ->
  exists js m,
    inst = Some js
    /\ decodeMap false js = Ok (Some m)
    /\ (forall index res,
          In index (Db.indexes d) ->
          Db.Type_ index = indexTypeEq -> Db.Ordering index = false ->
          Db.List d s' (Db.Eq (Db.FieldName index) (mapIndex m (Db.FieldName index)))
          = Ok res ->
          In (Some m) res).
Proof.
  intros H. destruct (Db_Save_inv _ _ _ _ _ H) as (js & m & id & l & -> & D & U & R & ->).
  exists js, m. split; [reflexivity|]. split; [exact D|].
  intros index res I T O L. unfold Db.List in L.
  destruct (Db.indexes d) as [|a rest] eqn:Ix; [contradiction|]. rewrite <- Ix in *.
  destruct (find _ (Db.indexes d)) as [i0|] eqn:F; [|discriminate].
  pose proof (Db_saveIndexes_each _ _ _ _ _ _ _ index R I) as G.
  destruct (decodeList_In _ _ js L) as (r & Dr & Ir).
  - eapply storeRead_In; [apply storeGet_In; exact G|apply Db_key_prefix].
  - rewrite D in Dr. now inversion Dr; subst.
Qed.

(** The earlier [List] matches a query to an index by type and
    ordering only: with an index [ByEq] on any field declared, a query
    [Eq] on every field is answered by the scan of its own key,
    whether that field has an index or not. *)
Theorem Db_list_ignores_field_name (d : Db.db) (s : store) (f g : string) (v : value) :
  In (Db.ByEq g) (Db.indexes d) ->
  Db.List d s (Db.Eq f v)
  = decodeList (map snd (storeRead s ("by" ++ f ++ ":" ++ fmt_v v))).
Proof.
  intros I. unfold Db.List.
  destruct (Db.indexes d) as [|a rest] eqn:Ix; [contradiction|]. rewrite <- Ix in *.
  destruct (find _ (Db.indexes d)) as [i0|] eqn:F; [reflexivity|].
  pose proof (find_none _ _ F _ I) as N. discriminate.
Qed.

(** A query turned descending by [Ord] matches no ascending index:
    where every index is ascending, as those [ByEq] builds are, the
    earlier [List] refuses it. *)
Theorem Db_descending_query_is_refused (d : Db.db) (s : store) (q : Db.Query) :
  Db.indexes d <> [] ->
  Forall (fun index => Db.Ordering index = false) (Db.indexes d) ->
  Db.List d s (Db.Ord q true)
  = Err (ErrorString ("Query type " ++ Db.QType q ++ ", field " ++ Db.QFieldName q
                      ++ " does not match any indexes")).
Proof.
  intros N F. unfold Db.List.
  destruct (Db.indexes d) as [|a rest] eqn:Ix; [contradiction|]. rewrite <- Ix in *.
  destruct (find _ (Db.indexes d)) as [i0|] eqn:Fd; [|reflexivity].
  apply find_some in Fd. destruct Fd as [I M].
  rewrite Forall_forall in F. specialize (F _ I).
  unfold Db.indexMatchesQuery, Db.Ord in M. cbn [Db.QOrdering] in M.
  rewrite F in M. apply andb_prop in M. destruct M as [_ M]. discriminate.
Qed.

Lemma Db_save_writes_record_witness :
  exists js m id,
    Some (person "1" "30") = Some js
    /\ decodeMap false js = Ok (Some m)
    /\ (Db.usableID m "ID" = Some id
        \/ Db.usableID m "ID" = None /\ Db.usableID m "id" = Some id)
    /\ [OpWrite "1" (person "1" "30"); OpWrite "byage:30:1" (person "1" "30")]
       = OpWrite id js
         :: map (fun index => OpWrite (Db.indexToSaveKey index id m) js) (Db.indexes ageDb)
    /\ storeGet [("1"%string, person "1" "30"); ("byage:30:1"%string, person "1" "30")] id
       = Some js
    /\ (forall index, In index (Db.indexes ageDb) ->
          storeGet [("1"%string, person "1" "30"); ("byage:30:1"%string, person "1" "30")]
                   (Db.indexToSaveKey index id m) = Some js).
Proof.
  apply (Db_save_writes_record ageDb []
           [("1"%string, person "1" "30"); ("byage:30:1"%string, person "1" "30")]
           (Some (person "1" "30"))
           [OpWrite "1" (person "1" "30"); OpWrite "byage:30:1" (person "1" "30")]).
  reflexivity.
Defined.

Lemma Db_save_then_list_finds_record_witness :
  exists js m,
    Some (person "1" "30") = Some js
    /\ decodeMap false js = Ok (Some m)
    /\ (forall index res,
          In index (Db.indexes ageDb) ->
          Db.Type_ index = indexTypeEq -> Db.Ordering index = false ->
          Db.List ageDb
            [("1"%string, person "1" "30"); ("byage:30:1"%string, person "1" "30")]
            (Db.Eq (Db.FieldName index) (mapIndex m (Db.FieldName index)))
          = Ok res ->
          In (Some m) res).
Proof.
  apply (Db_save_then_list_finds_record ageDb []
           [("1"%string, person "1" "30"); ("byage:30:1"%string, person "1" "30")]
           (Some (person "1" "30"))
           [OpWrite "1" (person "1" "30"); OpWrite "byage:30:1" (person "1" "30")]).
  reflexivity.
Defined.

Lemma Db_list_ignores_field_name_witness :
  Db.List ageDb [] (Db.Eq "name" (VString "bob"))
  = decodeList (map snd (storeRead [] ("by" ++ "name" ++ ":" ++ fmt_v (VString "bob")))).
Proof.
  apply (Db_list_ignores_field_name ageDb [] "name" "age" (VString "bob")).
  left. reflexivity.
Defined.

Lemma Db_descending_query_is_refused_witness :
  Db.List ageDb [] (Db.Ord (Db.Eq "age" (VInt 30)) true)
  = Err (ErrorString ("Query type " ++ Db.QType (Db.Eq "age" (VInt 30)) ++ ", field "
                      ++ Db.QFieldName (Db.Eq "age" (VInt 30))
                      ++ " does not match any indexes")).
Proof.
  apply (Db_descending_query_is_refused ageDb [] (Db.Eq "age" (VInt 30))).
  - discriminate.
  - repeat constructor.
Defined.
